(** * The MIDI snapshot plugin of pi-stomp

    A shallow embedding of [pistomp/midi_to_http/midi_snapshot_plugin.py]
    and the properties its specification states about it.

    Python objects that come out of the YAML configuration are dynamically
    typed, so they are embedded as a small universe of values [PyVal].
    Methods of [MidiSnapshotPlugin] are computations in a state-and-exception
    monad over a [World]: the plugin object ([self]), the table of threads
    the plugin has started, the calls received by the collaborators, and the
    records handed to [logging].

    Threads are interleaved at the granularity of the plugin's methods: a
    thread that was started is alive until the step that runs its target
    function to completion. A listener never writes to the registry, so the
    registry after a listener has exited does not depend on where in
    [start_listening_to_port] the exit falls. The exits of listeners while
    the scan or a turn of the monitor is under way are the subject of the
    definitions [.._among].

    A Python [set] is a [gset]; a [for] loop over it visits [elements] of
    it, one order among those the interpreter may take. *)

From Stdlib Require Import ZArith Ascii String.
From Stdlib Require Import DecimalString DecimalPos DecimalZ.
From stdpp Require Import base option list strings gmap fin_maps fin_sets.

Set Warnings "-register-all".

(** ** Python values and exceptions *)

Module Py.

(** The values [yaml.safe_load] can return (floats are left out), with
    string-keyed mappings: every lookup the plugin makes uses a [str] key,
    and in Python a [str] is equal to no key of another type. *)
Inductive PyVal : Type :=
  | VNone
  | VBool (b : bool)
  | VInt (z : Z)
  | VStr (s : string)
  | VList (l : list PyVal)
  | VDict (d : gmap string PyVal).

(** Exceptions are kept by class. [NonException] stands for the classes
    that derive from [BaseException] but not from [Exception]
    ([KeyboardInterrupt], [SystemExit], ...), which [except Exception] lets
    through. *)
Inductive Exn : Type :=
  | AttributeError (type_name attr : string)
  | ValueError (literal : string)
  | TypeError (type_name : string)
  | IndexError
  | FileNotFoundError
  | OtherException (name : string)
  | NonException (name : string).

Definition is_Exception (e : Exn) : bool :=
  match e with
  | NonException _ => false
  | _ => true
  end.

Inductive Res (A : Type) : Type :=
  | Ret (a : A)
  | Raise (e : Exn).
Arguments Ret {A} a.
Arguments Raise {A} e.

Definition type_name (v : PyVal) : string :=
  match v with
  | VNone => "NoneType"
  | VBool _ => "bool"
  | VInt _ => "int"
  | VStr _ => "str"
  | VList _ => "list"
  | VDict _ => "dict"
  end.

(** Truth value of an object, as [if not action] tests it. *)
Definition truthy (v : PyVal) : bool :=
  match v with
  | VNone => false
  | VBool b => b
  | VInt z => negb (z =? 0)%Z
  | VStr s => negb (String.eqb s "")
  | VList l => match l with [] => false | _ => true end
  | VDict d => negb (bool_decide (d = ∅))
  end.

(** [obj.get(key, default)]: only a [dict] has the attribute. *)
Definition get (obj : PyVal) (key : string) (dflt : PyVal) : Res PyVal :=
  match obj with
  | VDict d => Ret (default dflt (d !! key))
  | _ => Raise (AttributeError (type_name obj) "get")
  end.

(** [str(n)] for an [int], as an f-string field formats it. *)
Definition str_of_int (z : Z) : string := NilZero.string_of_int (Z.to_int z).

(** [v == s] for a string literal [s]. *)
Definition eq_str (v : PyVal) (s : string) : bool :=
  match v with
  | VStr a => String.eqb a s
  | _ => false
  end.

(** [v.startswith(p)]: an attribute of [str] only, among the values here. *)
Definition startswith (v : PyVal) (p : string) : Res bool :=
  match v with
  | VStr a => Ret (String.prefix p a)
  | _ => Raise (AttributeError (type_name v) "startswith")
  end.

(** [s.split(sep)] for a one-character separator: one more field than
    there are separators, empty fields kept. *)
Fixpoint split_str (sep : ascii) (s : string) : list string :=
  match s with
  | EmptyString => [EmptyString]
  | String c rest =>
      if Ascii.eqb c sep then EmptyString :: split_str sep rest
      else match split_str sep rest with
           | [] => [String c EmptyString]
           | field :: fields => String c field :: fields
           end
  end.

Definition split (v : PyVal) (sep : ascii) : Res (list string) :=
  match v with
  | VStr a => Ret (split_str sep a)
  | _ => Raise (AttributeError (type_name v) "split")
  end.

(** [l[i]] for a non-negative index. *)
Definition item {A} (l : list A) (i : nat) : Res A :=
  match l !! i with
  | Some x => Ret x
  | None => Raise IndexError
  end.

(** *** [int(s)] in base 10

    White space around the literal is dropped, one sign is allowed, and the
    digits may be grouped by single underscores. A literal of more digits
    than [int_max_str_digits], the limit of the interpreter as it is set by
    default, is refused like one that is no number.

    Characters are bytes here, and the model decides ASCII text. A string
    with a character outside ASCII is refused by the model, while the
    interpreter also reads the decimal digits and the white space of other
    scripts. *)
Definition is_space (c : ascii) : bool :=
  let n := nat_of_ascii c in
  (n =? 32) || ((9 <=? n) && (n <=? 13)).

Definition digit_of (c : ascii) : option Z :=
  let n := nat_of_ascii c in
  if (48 <=? n) && (n <=? 57) then Some (Z.of_nat (n - 48)) else None.

Fixpoint lstrip (l : list ascii) : list ascii :=
  match l with
  | c :: r => if is_space c then lstrip r else l
  | [] => []
  end.

Definition strip (l : list ascii) : list ascii :=
  rev (lstrip (rev (lstrip l))).

Fixpoint digits (acc : Z) (after_digit : bool) (l : list ascii) : option Z :=
  match l with
  | [] => if after_digit then Some acc else None
  | c :: r =>
      match digit_of c with
      | Some d => digits (10 * acc + d)%Z true r
      | None =>
          if Ascii.eqb c "_" && after_digit then digits acc false r else None
      end
  end.

Definition int_literal (l : list ascii) : option Z :=
  match l with
  | "+"%char :: r => digits 0 false r
  | "-"%char :: r => Z.opp <$> digits 0 false r
  | _ => digits 0 false l
  end.

Definition int_max_str_digits : Z := 4300.

Fixpoint count_digits (l : list ascii) : nat :=
  match l with
  | [] => 0
  | c :: r =>
      match digit_of c with
      | Some _ => S (count_digits r)
      | None => count_digits r
      end
  end.

Definition int_of_str (s : string) : Res Z :=
  let literal := strip (list_ascii_of_string s) in
  match int_literal literal with
  | Some z =>
      if (int_max_str_digits <? Z.of_nat (count_digits literal))%Z
      then Raise (ValueError s)
      else Ret z
  | None => Raise (ValueError s)
  end.

(** [int(v)] for a value. *)
Definition py_int (v : PyVal) : Res Z :=
  match v with
  | VInt z => Ret z
  | VBool b => Ret (if b then 1 else 0)%Z
  | VStr s => int_of_str s
  | _ => Raise (TypeError (type_name v))
  end.

End Py.
Export Py.

(** ** The collaborators and the world the plugin runs in *)

(** A decoded message of the device layer. [other_message] is a message of
    any type other than control change and program change (note on, pitch
    wheel, clock, ...). *)
Inductive Msg : Type :=
  | control_change (channel control value : Z)
  | program_change (channel program : Z)
  | other_message (type : string).

(** Modelled from the spec: the preset-navigation collaborator
    ([self.handler], passed to [register_plugin]), whose code is not part of
    this module. Its three methods each may fail: the model has the calls it
    can receive, and its behaviour, which is to return or to raise, given
    the calls it received before. *)
Inductive HandlerCall : Type :=
  | preset_incr_and_change
  | preset_decr_and_change
  | preset_set_and_change (index : Z).

Definition Handler : Type := list HandlerCall → HandlerCall → option Exn.

(** Modelled from the spec: the snapshot-inventory collaborator
    ([modalapi.mod]), whose code is not part of this module. The model has
    the answers it gives at the time of the call: the current snapshot's
    name, the inventory, an ordered mapping from index to display name, and
    whether [load_snapshot] raises. *)
Record ModApi : Type := {
  get_current_snapshot_name : string;
  get_snapshot_list : list (PyVal * string);
  load_snapshot_raises : Z → option Exn
}.

(** What the device layer answers to [open_input]: a failure, or a stream
    that delivers some messages and then ends, closed or with an error. *)
Inductive StreamEnd : Type :=
  | Closed
  | ReadError (e : Exn).

Inductive Port : Type :=
  | OpenFails (e : Exn)
  | Opened (msgs : list Msg) (fin : StreamEnd).

(** What opening and parsing the configuration file gives. *)
Inductive ConfigFile : Type :=
  | Loaded (v : PyVal)
  | Failed (e : Exn).

(** Levels of [logging]. The module asks for [INFO] on the root logger at
    import; the level in force is a field of the world, [root_level]. *)
Inductive Level : Type := DEBUG | INFO | WARNING | ERROR.

Definition levelno (l : Level) : nat :=
  match l with
  | DEBUG => 10
  | INFO => 20
  | WARNING => 30
  | ERROR => 40
  end.

(** Records handed to [logging], one constructor for each call in the
    source, with the values its message interpolates. *)
Inductive LogMsg : Type :=
  | PluginLoaded
  | NoConfigFile
  | PortsDetected (input_names : gset string)
  | ListenStart (port_name : string)
  | MonitorStarted
  | PeriodicScan (current_ports : gset string)
  | NewPort (port : string)
  | PortRemoved (port : string)
  | ListenActive (port_name : string)
  | PortError (port_name : string) (e : Exn)
  | ListenStop (port_name : string)
  | ActionFailed (action : PyVal) (e : Exn)
  | SnapshotLoading (index : Z)
  | NextSnapshot (key : PyVal) (name : string)
  | PreviousSnapshot (key : PyVal) (name : string).

(** Threads started by the plugin. A thread is named by its position in
    the table of threads. *)
Inductive Target : Type :=
  | listen_to_all_midi_ports_target
  | monitor_midi_devices_target
  | listen_to_port_target (port_name : string).

Record Thread : Type := {
  target : Target;
  alive : bool
}.

Record MidiSnapshotPlugin : Type := {
  handler : Handler;
  config : PyVal;
  snapshot_map : PyVal;
  verbose : PyVal;
  running : bool;
  active_ports : gmap string nat
}.

Record World : Type := {
  self : MidiSnapshotPlugin;
  threads : list Thread;
  handler_calls : list HandlerCall;
  modapi : ModApi;
  modapi_calls : list Z;
  root_level : Level;
  log : list (Level * LogMsg)
}.

Definition with_self (f : MidiSnapshotPlugin → MidiSnapshotPlugin)
    (w : World) : World :=
  {| self := f (self w); threads := threads w;
     handler_calls := handler_calls w; modapi := modapi w;
     modapi_calls := modapi_calls w; root_level := root_level w;
     log := log w |}.

Definition with_threads (f : list Thread → list Thread) (w : World) : World :=
  {| self := self w; threads := f (threads w);
     handler_calls := handler_calls w; modapi := modapi w;
     modapi_calls := modapi_calls w; root_level := root_level w;
     log := log w |}.

Definition with_handler_calls (f : list HandlerCall → list HandlerCall)
    (w : World) : World :=
  {| self := self w; threads := threads w;
     handler_calls := f (handler_calls w); modapi := modapi w;
     modapi_calls := modapi_calls w; root_level := root_level w;
     log := log w |}.

Definition with_modapi_calls (f : list Z → list Z) (w : World) : World :=
  {| self := self w; threads := threads w;
     handler_calls := handler_calls w; modapi := modapi w;
     modapi_calls := f (modapi_calls w); root_level := root_level w;
     log := log w |}.

Definition with_log (f : list (Level * LogMsg) → list (Level * LogMsg))
    (w : World) : World :=
  {| self := self w; threads := threads w;
     handler_calls := handler_calls w; modapi := modapi w;
     modapi_calls := modapi_calls w; root_level := root_level w;
     log := f (log w) |}.

Definition set_handler (h : Handler) (p : MidiSnapshotPlugin) :=
  {| handler := h; config := config p; snapshot_map := snapshot_map p;
     verbose := verbose p; running := running p;
     active_ports := active_ports p |}.

Definition set_config (v : PyVal) (p : MidiSnapshotPlugin) :=
  {| handler := handler p; config := v; snapshot_map := snapshot_map p;
     verbose := verbose p; running := running p;
     active_ports := active_ports p |}.

Definition set_snapshot_map (v : PyVal) (p : MidiSnapshotPlugin) :=
  {| handler := handler p; config := config p; snapshot_map := v;
     verbose := verbose p; running := running p;
     active_ports := active_ports p |}.

Definition set_verbose (v : PyVal) (p : MidiSnapshotPlugin) :=
  {| handler := handler p; config := config p; snapshot_map := snapshot_map p;
     verbose := v; running := running p; active_ports := active_ports p |}.

Definition set_running (b : bool) (p : MidiSnapshotPlugin) :=
  {| handler := handler p; config := config p; snapshot_map := snapshot_map p;
     verbose := verbose p; running := b; active_ports := active_ports p |}.

Definition map_active_ports (f : gmap string nat → gmap string nat)
    (p : MidiSnapshotPlugin) :=
  {| handler := handler p; config := config p; snapshot_map := snapshot_map p;
     verbose := verbose p; running := running p;
     active_ports := f (active_ports p) |}.

(** ** The monad of methods: state and exceptions *)

Definition M (A : Type) : Type := World → Res A * World.

Global Instance M_ret : MRet M := λ A a w, (Ret a, w).

Global Instance M_bind : MBind M := λ A B f m w,
  match m w with
  | (Ret a, w') => f a w'
  | (Raise e, w') => (Raise e, w')
  end.

Definition raise {A} (e : Exn) : M A := λ w, (Raise e, w).

Definition lift {A} (r : Res A) : M A := λ w, (r, w).

Definition gets {A} (f : World → A) : M A := λ w, (Ret (f w), w).

Definition modify (f : World → World) : M unit := λ w, (Ret tt, f w).

(** [try: body / except cls as e: on_error(e)], for the class given by
    [catches]. *)
Definition try_except {A} (body : M A) (catches : Exn → bool)
    (on_error : Exn → M A) : M A := λ w,
  match body w with
  | (Raise e, w') => if catches e then on_error e w' else (Raise e, w')
  | r => r
  end.

(** [try: body / finally: final] *)
Definition try_finally {A} (body : M A) (final : M unit) : M A := λ w,
  let '(r, w') := body w in
  match final w' with
  | (Ret _, w'') => (r, w'')
  | (Raise e, w'') => (Raise e, w'')
  end.

(** [for x in l: body(x)] *)
Fixpoint for_each {A} (l : list A) (body : A → M unit) : M unit :=
  match l with
  | [] => mret tt
  | x :: rest => body x;; for_each rest body
  end.

(** A record is emitted when its level reaches the root logger's:
    [logged] is the world after the call. *)
Definition logged (lvl : Level) (msg : LogMsg) (w : World) : World :=
  if levelno (root_level w) <=? levelno lvl
  then with_log (λ l, l ++ [(lvl, msg)]) w
  else w.

Arguments logged : simpl never.

Definition logging_log (lvl : Level) (msg : LogMsg) : M unit :=
  modify (logged lvl msg).

Definition logging_debug := logging_log DEBUG.
Definition logging_info := logging_log INFO.
Definition logging_warning := logging_log WARNING.
Definition logging_error := logging_log ERROR.

(** A call of a method of [self.handler]. The call is received, then it
    returns or raises. *)
Definition call_handler (c : HandlerCall) : M unit := λ w,
  let w' := with_handler_calls (λ l, l ++ [c]) w in
  match handler (self w) (handler_calls w) c with
  | Some e => (Raise e, w')
  | None => (Ret tt, w')
  end.

(** [modapi.load_snapshot(index)] *)
Definition modapi_load_snapshot (index : Z) : M unit := λ w,
  let w' := with_modapi_calls (λ l, l ++ [index]) w in
  match load_snapshot_raises (modapi w) index with
  | Some e => (Raise e, w')
  | None => (Ret tt, w')
  end.

(** [threading.Thread(target=...).start()]: the new thread is alive. Its
    end, whenever it comes, is another step: [listener_thread], and
    [listener_exit] where it falls inside the scan or a turn of the
    monitor. *)
Definition Thread_start (tg : Target) : M nat := λ w,
  (Ret (length (threads w)),
   with_threads (λ l, l ++ [{| target := tg; alive := true |}]) w).

(** [thread.is_alive()] *)
Definition is_alive (w : World) (thread : nat) : bool :=
  match threads w !! thread with
  | Some th => alive th
  | None => false
  end.

(** ** The methods of [MidiSnapshotPlugin] *)

(** [load_config]: the path is [pistomp.config.data_dir] joined with the
    file name; what opening and parsing it gives is [file]. *)
Definition load_config (file : ConfigFile) : M PyVal :=
  try_except
    (match file return M PyVal with
     | Loaded v => mret v
     | Failed e => raise e
     end)
    (λ e, match e with FileNotFoundError => true | _ => false end)
    (λ _, logging_warning NoConfigFile;; mret (VDict ∅)).

(** [__init__], on the object [self] of the world. *)
Definition init (h : Handler) (file : ConfigFile) : M unit :=
  modify (with_self (set_handler h));;
  cfg ← load_config file;
  modify (with_self (set_config cfg));;
  midi ← lift (get cfg "midi" (VDict ∅));
  snapshot ← lift (get midi "snapshot" (VDict ∅));
  modify (with_self (set_snapshot_map snapshot));;
  v ← lift (get cfg "verbose" (VBool false));
  modify (with_self (set_verbose v));;
  modify (with_self (set_running false));;
  modify (with_self (map_active_ports (λ _, ∅))).

Definition start : M unit :=
  modify (with_self (set_running true));;
  _ ← Thread_start listen_to_all_midi_ports_target;
  _ ← Thread_start monitor_midi_devices_target;
  mret tt.

Definition register_plugin (h : Handler) (file : ConfigFile) : M unit :=
  init h file;;
  start;;
  logging_info PluginLoaded.

Definition start_listening_to_port (port_name : string) : M unit :=
  thread ← gets (λ w, active_ports (self w) !! port_name);
  live ← gets (λ w, from_option (is_alive w) false thread);
  if live : bool then mret tt
  else
    modify (with_self (map_active_ports (delete port_name)));;
    thread ← Thread_start (listen_to_port_target port_name);
    modify (with_self (map_active_ports (<[port_name := thread]>)));;
    logging_info (ListenStart port_name).

(** [listen_to_all_midi_ports]; [names] is what [get_input_names()]
    returns. *)
Definition listen_to_all_midi_ports (names : list string) : M unit :=
  let input_names : gset string := list_to_set names in
  v ← gets (λ w, verbose (self w));
  (if truthy v || bool_decide (input_names = ∅)
   then logging_info (PortsDetected input_names)
   else mret tt);;
  for_each (elements input_names) start_listening_to_port.

(** The bodies of the two [for] loops of the monitor. *)
Definition on_new_port (port : string) : M unit :=
  logging_info (NewPort port);;
  start_listening_to_port port.

Definition on_removed_port (port : string) : M unit :=
  logging_info (PortRemoved port);;
  modify (with_self (map_active_ports (delete port))).

(** One turn of the [while] loop of [monitor_midi_devices], without the
    sleep: it returns the new value of [previous_ports]. *)
Definition monitor_cycle (names : list string) (previous_ports : gset string)
    : M (gset string) :=
  let current_ports : gset string := list_to_set names in
  v ← gets (λ w, verbose (self w));
  (if truthy v then logging_debug (PeriodicScan current_ports) else mret tt);;
  let new_ports := current_ports ∖ previous_ports in
  let removed_ports := previous_ports ∖ current_ports in
  for_each (elements new_ports) on_new_port;;
  for_each (elements removed_ports) on_removed_port;;
  mret current_ports.

(** The loop itself, for the enumerations [polls] of its first turns. *)
Fixpoint monitor_loop (polls : list (list string))
    (previous_ports : gset string) : M unit :=
  match polls with
  | [] => mret tt
  | names :: later =>
      go ← gets (λ w, running (self w));
      if go : bool then
        current_ports ← monitor_cycle names previous_ports;
        monitor_loop later current_ports
      else mret tt
  end.

Definition monitor_midi_devices (names : list string)
    (polls : list (list string)) : M unit :=
  logging_info MonitorStarted;;
  monitor_loop polls (list_to_set names).

(** The f-string [f"{chan}:{n}"]. *)
Definition binding_key (chan n : Z) : string :=
  str_of_int chan +:+ ":" +:+ str_of_int n.

(** The first statement of [handle_midi_message]: the action bound to the
    message, or [None] where the method returns at once. *)
Definition lookup_action (msg : Msg) : M (option PyVal) :=
  match msg with
  | control_change channel control _ =>
      let chan := (channel + 1)%Z in
      let cc := control in
      table ← gets (λ w, snapshot_map (self w));
      bindings ← lift (get table "cc" (VDict ∅));
      action ← lift (get bindings (binding_key chan cc) VNone);
      mret (Some action)
  | program_change channel program =>
      let chan := (channel + 1)%Z in
      let pc := program in
      table ← gets (λ w, snapshot_map (self w));
      bindings ← lift (get table "pc" (VDict ∅));
      action ← lift (get bindings (binding_key chan pc) VNone);
      mret (Some action)
  | other_message _ => mret None
  end.

(** The [try] statement of [handle_midi_message]. *)
Definition run_action (action : PyVal) : M unit :=
  try_except
    (if eq_str action "next" then call_handler preset_incr_and_change
     else if eq_str action "previous" then call_handler preset_decr_and_change
     else
       is_load ← lift (startswith action "load:");
       if is_load : bool then
         fields ← lift (split action ":");
         field ← lift (item fields 1);
         index ← lift (py_int (VStr field));
         call_handler (preset_set_and_change index)
       else mret tt)
    is_Exception
    (λ e, logging_error (ActionFailed action e)).

Definition handle_midi_message (msg : Msg) : M unit :=
  found ← lookup_action msg;
  match found with
  | None => mret tt
  | Some action =>
      if negb (truthy action) then mret tt else run_action action
  end.

(** The [for msg in inport] loop of [listen_to_port]. *)
Fixpoint receive_loop (msgs : list Msg) (fin : StreamEnd) : M unit :=
  match msgs with
  | [] =>
      match fin with
      | Closed => mret tt
      | ReadError e => raise e
      end
  | msg :: later =>
      go ← gets (λ w, running (self w));
      if negb (go : bool) then mret tt
      else handle_midi_message msg;; receive_loop later fin
  end.

(** [listen_to_port]; [port] is what [open_input(port_name)] gives. *)
Definition listen_to_port (port_name : string) (port : Port) : M unit :=
  try_finally
    (try_except
       (match port with
        | OpenFails e => raise e
        | Opened msgs fin =>
            logging_info (ListenActive port_name);;
            receive_loop msgs fin
        end)
       is_Exception
       (λ e, logging_warning (PortError port_name e)))
    (logging_info (ListenStop port_name)).

(** The life of a listener thread: it runs its target, [listen_to_port],
    to the end, and is no longer alive. *)
Definition thread_exit (thread : nat) : M unit :=
  modify (with_threads
    (alter (λ th, {| target := target th; alive := false |}) thread)).

Definition listener_thread (thread : nat) (port : Port) : M unit := λ w,
  match target <$> threads w !! thread with
  | Some (listen_to_port_target port_name) =>
      try_finally (listen_to_port port_name port) (thread_exit thread) w
  | _ => (Ret tt, w)
  end.

(** ** The listeners beside the monitor

    The scan and the monitor run while the listeners they have started run
    too, and a listener can come to its end at any time: at once, when its
    device cannot be opened. What the scan and the monitor can see of it is
    that its thread is no longer alive. [listener_exit] is that step, for a
    thread that is alive, whatever its device did. The definitions
    [.._among] are the scan and one turn of the monitor together with the
    exits that fall after each of their steps, and for the monitor during
    its sleep; with no exit they are [listen_to_all_midi_ports] and
    [monitor_cycle]. An exception that a listener does not catch ends its
    thread only. *)
Definition listener_exit (ev : nat * Port) : M unit := λ w,
  if is_alive w ev.1
  then (Ret tt, (listener_thread ev.1 ev.2 w).2)
  else (Ret tt, w).

Definition listener_exits (evs : list (nat * Port)) : M unit :=
  for_each evs listener_exit.

(** [for x in l: body(x)], with the listeners of [hd [] exits] coming to
    their end after the first turn of the loop, and so on. *)
Fixpoint for_each_among {A} (l : list A) (body : A → M unit)
    (exits : list (list (nat * Port))) : M unit :=
  match l with
  | [] => mret tt
  | x :: rest =>
      body x;;
      listener_exits (hd [] exits);;
      for_each_among rest body (tl exits)
  end.

Definition listen_to_all_midi_ports_among (names : list string)
    (exits : list (list (nat * Port))) : M unit :=
  let input_names : gset string := list_to_set names in
  v ← gets (λ w, verbose (self w));
  (if truthy v || bool_decide (input_names = ∅)
   then logging_info (PortsDetected input_names)
   else mret tt);;
  for_each_among (elements input_names) start_listening_to_port exits.

(** One turn of the [while] loop of [monitor_midi_devices], its sleep
    included. *)
Definition monitor_cycle_among (names : list string)
    (previous_ports : gset string)
    (exits_new exits_removed : list (list (nat * Port)))
    (exits_sleep : list (nat * Port)) : M (gset string) :=
  let current_ports : gset string := list_to_set names in
  v ← gets (λ w, verbose (self w));
  (if truthy v then logging_debug (PeriodicScan current_ports) else mret tt);;
  let new_ports := current_ports ∖ previous_ports in
  let removed_ports := previous_ports ∖ current_ports in
  for_each_among (elements new_ports) on_new_port exits_new;;
  for_each_among (elements removed_ports) on_removed_port exits_removed;;
  listener_exits exits_sleep;;
  mret current_ports.

Definition load_snapshot (index : Z) : M unit :=
  logging_info (SnapshotLoading index);;
  modapi_load_snapshot index.

(** [names.index(x)] where [x in names] holds, and [None] where not. *)
Fixpoint index_of (x : string) (names : list string) : option nat :=
  match names with
  | [] => None
  | n :: rest => if String.eqb n x then Some 0 else S <$> index_of x rest
  end.

Definition load_next_snapshot : M unit :=
  current_name ← gets (λ w, get_current_snapshot_name (modapi w));
  snapshot_list ← gets (λ w, get_snapshot_list (modapi w));
  let names := snapshot_list.*2 in
  let keys := snapshot_list.*1 in
  match index_of current_name names with
  | Some idx =>
      let next_idx := Z.to_nat ((Z.of_nat idx + 1) `mod` Z.of_nat (length names)) in
      key ← lift (item keys next_idx);
      name ← lift (item names next_idx);
      logging_info (NextSnapshot key name);;
      index ← lift (py_int key);
      load_snapshot index
  | None => mret tt
  end.

Definition load_previous_snapshot : M unit :=
  current_name ← gets (λ w, get_current_snapshot_name (modapi w));
  snapshot_list ← gets (λ w, get_snapshot_list (modapi w));
  let names := snapshot_list.*2 in
  let keys := snapshot_list.*1 in
  match index_of current_name names with
  | Some idx =>
      let prev_idx :=
        Z.to_nat ((Z.of_nat idx - 1 + Z.of_nat (length names))
                  `mod` Z.of_nat (length names)) in
      key ← lift (item keys prev_idx);
      name ← lift (item names prev_idx);
      logging_info (PreviousSnapshot key name);;
      index ← lift (py_int key);
      load_snapshot index
  | None => mret tt
  end.

(** The world before the plugin is created: a blank object, no thread, no
    call, no record. *)
Definition blank : MidiSnapshotPlugin :=
  {| handler := λ _ _, None; config := VNone; snapshot_map := VNone;
     verbose := VNone; running := false; active_ports := ∅ |}.

Definition boot (m : ModApi) (lvl : Level) : World :=
  {| self := blank; threads := []; handler_calls := []; modapi := m;
     modapi_calls := []; root_level := lvl; log := [] |}.

(** ** Notions used by the statements *)

(** The section [cls] of the table binds nothing to [key]: the section is
    missing, or it is a mapping without that key. *)
Definition no_binding (table : gmap string PyVal) (cls key : string) : Prop :=
  table !! cls = None
  ∨ ∃ section, table !! cls = Some (VDict section) ∧ section !! key = None.

(** The world after [start_listening_to_port] has started a new listener
    for [port_name]. *)
Definition spawned (port_name : string) (w : World) : World :=
  logged INFO (ListenStart port_name)
    (with_self (map_active_ports (<[port_name := length (threads w)]>))
       (with_threads
          (λ l, l ++ [{| target := listen_to_port_target port_name;
                         alive := true |}])
          (with_self (map_active_ports (delete port_name)) w))).

(** The registry has an entry for [port_name] whose thread is alive. *)
Definition live_entry (w : World) (port_name : string) : Prop :=
  ∃ thread,
    active_ports (self w) !! port_name = Some thread
    ∧ is_alive w thread = true.

(** The registry holds a live entry for every device of [ports] and no
    entry for a device outside. *)
Definition registry_exact (w : World) (ports : gset string) : Prop :=
  ∀ port_name,
    (port_name ∈ ports → live_entry w port_name)
    ∧ (port_name ∉ ports → active_ports (self w) !! port_name = None).

(** A step keeps the plugin object and the threads: it may only add to the
    calls received by the collaborators and to the log. *)
Definition frame (w w' : World) : Prop :=
  self w' = self w ∧ threads w' = threads w.

Definition keeps {A} (m : M A) : Prop := ∀ w, frame w (m w).2.

(** The call that an action string stands for: ["next"], ["previous"], or
    ["load:"] followed by a field that [int] accepts. *)
Definition parse_action (a : string) : option HandlerCall :=
  if String.eqb a "next" then Some preset_incr_and_change
  else if String.eqb a "previous" then Some preset_decr_and_change
  else if String.prefix "load:" a then
    match split_str ":" a !! 1 with
    | Some field =>
        match int_of_str field with
        | Ret index => Some (preset_set_and_change index)
        | Raise _ => None
        end
    | None => None
    end
  else None.

(** The decimal form of [n], its sign left out, has no more digits than
    [int] reads. *)
Definition within_digit_limit (n : Z) : Prop :=
  (Z.of_nat (String.length (str_of_int (Z.abs n))) ≤ int_max_str_digits)%Z.

(** A result that is no [Exception]: a normal return, or an exception of a
    class that [except Exception] does not catch. *)
Definition contained (r : Res unit) : Prop :=
  r = Ret tt ∨ ∃ name, r = Raise (NonException name).



(** Every entry of the registry names a thread that was started to listen
    to the device of the entry. *)
Definition registry_wf (w : World) : Prop :=
  ∀ port_name thread,
    active_ports (self w) !! port_name = Some thread →
    target <$> threads w !! thread = Some (listen_to_port_target port_name).

(** Two worlds have the same plugin settings: everything of [self] but the
    registry. *)
Definition same_settings (w w' : World) : Prop :=
  handler (self w') = handler (self w)
  ∧ config (self w') = config (self w)
  ∧ snapshot_map (self w') = snapshot_map (self w)
  ∧ verbose (self w') = verbose (self w)
  ∧ running (self w') = running (self w).

(** Between two worlds only listeners among [exiting] have come to their
    end: the plugin object is the same, no thread was added, and every other
    thread is as alive as it was. *)
Definition exits_only (exiting : list nat) (w w' : World) : Prop :=
  self w' = self w
  ∧ length (threads w') = length (threads w)
  ∧ ∀ thread, thread ∉ exiting → is_alive w' thread = is_alive w thread.

(** The device has an entry in the registry, for a thread that exists and
    that is alive unless it is among [exiting]. *)
Definition entry_unless_exited (exiting : list nat) (w : World)
    (port_name : string) : Prop :=
  ∃ thread,
    active_ports (self w) !! port_name = Some thread
    ∧ thread < length (threads w)
    ∧ (thread ∉ exiting → is_alive w thread = true).

(** What an operation on the registry may do to the world: it keeps the
    settings, calls no collaborator, only adds threads, and gives a device a
    new entry only for a thread that did not exist before; it keeps the
    registry well formed. *)
Definition registry_step (w w' : World) : Prop :=
  same_settings w w'
  ∧ threads w `prefix_of` threads w'
  ∧ (∀ port_name thread,
       active_ports (self w') !! port_name = Some thread →
       active_ports (self w) !! port_name = Some thread
       ∨ length (threads w) ≤ thread)
  ∧ handler_calls w' = handler_calls w
  ∧ modapi_calls w' = modapi_calls w
  ∧ (registry_wf w → registry_wf w').

(** Worlds for the examples: a collaborator that never raises, the
    inventory with three snapshots, and the plugin as [register_plugin]
    leaves it for a given configuration file. *)
Definition quiet_handler : Handler := λ _ _, None.

Definition inventory_ABC : list (PyVal * string) :=
  [(VInt 0, "A"); (VInt 1, "B"); (VInt 2, "C")]%string.

Definition modapi_at (current : string) : ModApi :=
  {| get_current_snapshot_name := current;
     get_snapshot_list := inventory_ABC;
     load_snapshot_raises := λ _, None |}.

Definition config_with (cc : gmap string PyVal) : PyVal :=
  VDict {[ "midi" := VDict {[ "snapshot" := VDict {[ "cc" := VDict cc ]} ]} ]}.

Definition registered (file : ConfigFile) (current : string) : World :=
  (register_plugin quiet_handler file (boot (modapi_at current) INFO)).2.

(** * Properties *)

(** ** The Python fragment *)

Example split_str_examples :
  split_str ":" "load:5" = ["load"; "5"]%string
  ∧ split_str ":" "a::b:" = ["a"; ""; "b"; ""]%string
  ∧ split_str ":" "next" = ["next"]%string.
Proof. repeat split. Qed.

Example int_of_str_examples :
  int_of_str "5" = Ret 5%Z
  ∧ int_of_str " -1_000 " = Ret (-1000)%Z
  ∧ int_of_str "007" = Ret 7%Z
  ∧ int_of_str "abc" = Raise (ValueError "abc")
  ∧ int_of_str "" = Raise (ValueError "")
  ∧ int_of_str "1__0" = Raise (ValueError "1__0")
  ∧ int_of_str "- 5" = Raise (ValueError "- 5").
Proof. repeat split. Qed.

Example int_of_str_limit :
  int_of_str (string_of_list_ascii (repeat "7"%char 4301))
  = Raise (ValueError (string_of_list_ascii (repeat "7"%char 4301)))
  ∧ int_of_str (string_of_list_ascii ("-"%char :: repeat "7"%char 4300))
    ≠ Raise (ValueError
               (string_of_list_ascii ("-"%char :: repeat "7"%char 4300))).
Proof. split; [by vm_compute|]. vm_compute. discriminate. Qed.

Example str_of_int_examples :
  str_of_int 0 = "0"%string ∧ str_of_int 16 = "16"%string
  ∧ str_of_int (-3) = "-3"%string.
Proof. repeat split. Qed.

Lemma int_of_str_raises s e : int_of_str s = Raise e → e = ValueError s.
Proof.
  unfold int_of_str. destruct (int_literal _); [|congruence].
  destruct (_ <? _)%Z; congruence.
Qed.

(** A string that starts with ["load:"] is none of the two keywords, is not
    empty, and has a second field. *)
Lemma split_str_cons sep s : ∃ f fs, split_str sep s = f :: fs.
Proof.
  destruct s as [|c s]; simpl; [by eauto|].
  destruct (Ascii.eqb c sep); [by eauto|].
  destruct (split_str sep s); eauto.
Qed.

Lemma prefix_String c s1 d s2 :
  String.prefix (String c s1) (String d s2)
  = if ascii_dec c d then String.prefix s1 s2 else false.
Proof. reflexivity. Qed.

Lemma prefix_load_split a :
  String.prefix "load:" a = true →
  ∃ field fields, split_str ":" a = "load"%string :: field :: fields.
Proof.
  intros H.
  do 5 (destruct a as [|? a]; [discriminate|];
        rewrite prefix_String in H;
        destruct (ascii_dec _ _) as [<-|]; [|discriminate]).
  destruct (split_str_cons ":" a) as (f & fs & Hs).
  exists f, fs. simpl. by rewrite Hs.
Qed.

Lemma prefix_load_not_keyword a :
  String.prefix "load:" a = true →
  truthy (VStr a) = true
  ∧ eq_str (VStr a) "next" = false
  ∧ eq_str (VStr a) "previous" = false.
Proof.
  intros H.
  destruct a as [|? a]; [discriminate|].
  rewrite prefix_String in H.
  destruct (ascii_dec _ _) as [<-|]; [|discriminate].
  done.
Qed.

(** ** Steps that leave the world as it is, or add to the log only *)

(** Logging changes nothing but the log. *)
Lemma self_logged lvl msg w : self (logged lvl msg w) = self w.
Proof. unfold logged. by destruct (_ <=? _). Qed.

Lemma threads_logged lvl msg w : threads (logged lvl msg w) = threads w.
Proof. unfold logged. by destruct (_ <=? _). Qed.

Lemma handler_calls_logged lvl msg w :
  handler_calls (logged lvl msg w) = handler_calls w.
Proof. unfold logged. by destruct (_ <=? _). Qed.

Lemma modapi_logged lvl msg w : modapi (logged lvl msg w) = modapi w.
Proof. unfold logged. by destruct (_ <=? _). Qed.

Lemma modapi_calls_logged lvl msg w :
  modapi_calls (logged lvl msg w) = modapi_calls w.
Proof. unfold logged. by destruct (_ <=? _). Qed.

Lemma root_level_logged lvl msg w :
  root_level (logged lvl msg w) = root_level w.
Proof. unfold logged. by destruct (_ <=? _). Qed.

Lemma is_alive_logged lvl msg w t :
  is_alive (logged lvl msg w) t = is_alive w t.
Proof. unfold is_alive. by rewrite threads_logged. Qed.

Create Rewrite HintDb world.
#[local] Hint Rewrite self_logged threads_logged handler_calls_logged
  modapi_logged modapi_calls_logged root_level_logged is_alive_logged : world.

Ltac monad :=
  unfold mbind, M_bind, mret, M_ret, gets, lift, modify, raise,
    logging_debug, logging_info, logging_warning, logging_error;
  unfold logging_log, modify; simpl.

Lemma logged_ERROR msg w :
  logged ERROR msg w = with_log (λ l, l ++ [(ERROR, msg)]) w.
Proof.
  unfold logged. by destruct (root_level w).
Qed.

(** ** [handle_midi_message] *)

(** The table lookup reads the world and leaves it as it is. *)
Lemma lookup_action_world msg w : (lookup_action msg w).2 = w.
Proof.
  destruct msg as [c n v|c n|ty]; unfold lookup_action; monad;
    try reflexivity.
  all: destruct (get (snapshot_map (self w)) _ _) as [b|]; [|done].
  all: by destruct (get b _ _).
Qed.

Lemma run_action_unknown a w :
  a ≠ "next"%string → a ≠ "previous"%string →
  String.prefix "load:" a = false →
  run_action (VStr a) w = (Ret tt, w).
Proof.
  intros Hnext Hprev Hload.
  apply String.eqb_neq in Hnext, Hprev.
  unfold run_action, try_except; monad.
  by rewrite Hnext, Hprev, Hload.
Qed.

Lemma run_action_malformed a field e w :
  String.prefix "load:" a = true →
  split_str ":" a !! 1 = Some field →
  int_of_str field = Raise e →
  run_action (VStr a) w
  = (Ret tt, with_log (λ l, l ++ [(ERROR, ActionFailed (VStr a) e)]) w).
Proof.
  intros Hload Hfield Hint.
  destruct (prefix_load_not_keyword a Hload) as (_ & Hnext & Hprev).
  simpl in Hnext, Hprev.
  unfold run_action, try_except, item; monad.
  rewrite Hnext, Hprev, Hload, Hfield, Hint.
  apply int_of_str_raises in Hint as ->. simpl.
  by rewrite logged_ERROR.
Qed.

Lemma run_action_load a field index w :
  String.prefix "load:" a = true →
  split_str ":" a !! 1 = Some field →
  int_of_str field = Ret index →
  handler_calls (run_action (VStr a) w).2
  = handler_calls w ++ [preset_set_and_change index].
Proof.
  intros Hload Hfield Hint.
  destruct (prefix_load_not_keyword a Hload) as (_ & Hnext & Hprev).
  simpl in Hnext, Hprev.
  unfold run_action, try_except, item, call_handler; monad.
  rewrite Hnext, Hprev, Hload, Hfield, Hint.
  destruct (handler (self w) (handler_calls w) _) as [e|]; [|done].
  destruct (is_Exception e); [|done].
  simpl. by autorewrite with world.
Qed.

(** How [handle_midi_message] goes on from a bound action. *)
Lemma handle_bound msg action w :
  lookup_action msg w = (Ret (Some action), w) →
  handle_midi_message msg w
  = if negb (truthy action) then (Ret tt, w) else run_action action w.
Proof.
  intros H. unfold handle_midi_message; monad. rewrite H.
  by destruct (truthy action).
Qed.

(** The lookup of a control-change and of a program-change message in a
    table that is a mapping whose section is a mapping. *)
Lemma lookup_control_change w table cc channel control value :
  snapshot_map (self w) = VDict table →
  table !! "cc" = Some (VDict cc) →
  lookup_action (control_change channel control value) w
  = (Ret (Some (default VNone (cc !! binding_key (channel + 1) control))), w).
Proof.
  intros Htable Hcc. unfold lookup_action; monad.
  rewrite Htable. simpl. by rewrite Hcc.
Qed.

Lemma lookup_program_change w table pc channel program :
  snapshot_map (self w) = VDict table →
  table !! "pc" = Some (VDict pc) →
  lookup_action (program_change channel program) w
  = (Ret (Some (default VNone (pc !! binding_key (channel + 1) program))), w).
Proof.
  intros Htable Hpc. unfold lookup_action; monad.
  rewrite Htable. simpl. by rewrite Hpc.
Qed.

Lemma get_no_binding table cls key :
  no_binding table cls key →
  ∃ section,
    get (VDict table) cls (VDict ∅) = Ret (VDict section)
    ∧ section !! key = None.
Proof.
  intros [Hnone|(section & Hsome & Hkey)]; simpl.
  - exists ∅. by rewrite Hnone.
  - exists section. by rewrite Hsome.
Qed.

(** ** The binding key *)

Lemma append_String c s t : (String c s +:+ t)%string = String c (s +:+ t).
Proof. reflexivity. Qed.

Lemma split_str_uint d :
  split_str ":" (NilEmpty.string_of_uint d) = [NilEmpty.string_of_uint d].
Proof.
  induction d as [|d IH|d IH|d IH|d IH|d IH|d IH|d IH|d IH|d IH|d IH];
    simpl; [done|by rewrite IH..].
Qed.

(** A printed integer has no colon: it is one field. *)
Lemma split_str_of_int z : split_str ":" (str_of_int z) = [str_of_int z].
Proof.
  unfold str_of_int, NilZero.string_of_int, NilZero.string_of_uint.
  destruct (Z.to_int z) as [d|d].
  - destruct d; try done; apply split_str_uint.
  - cbn [split_str]. change (Ascii.eqb "-" ":") with false. cbv iota.
    by destruct d; try done; rewrite split_str_uint.
Qed.

Lemma split_str_append s1 s2 :
  split_str ":" s1 = [s1] →
  split_str ":" (s1 +:+ ":" +:+ s2) = s1 :: split_str ":" s2.
Proof.
  induction s1 as [|c s1 IH]; intros H; [done|].
  rewrite append_String. simpl in *.
  destruct (Ascii.eqb c ":"); [done|].
  destruct (split_str ":" s1) as [|f fs] eqn:Hs; [by simplify_eq|].
  simplify_eq. by rewrite IH.
Qed.

Lemma split_binding_key chan n :
  split_str ":" (binding_key chan n) = [str_of_int chan; str_of_int n].
Proof.
  unfold binding_key.
  rewrite split_str_append by apply split_str_of_int.
  by rewrite split_str_of_int.
Qed.

Lemma to_int_nonnil z :
  Z.to_int z ≠ Decimal.Pos Decimal.Nil ∧ Z.to_int z ≠ Decimal.Neg Decimal.Nil.
Proof.
  destruct z as [|p|p]; simpl; split; try done.
  - intros [= H]. by apply Unsigned.to_uint_nonnil in H.
  - intros [= H]. by apply Unsigned.to_uint_nonnil in H.
Qed.

Lemma str_of_int_inj a b : str_of_int a = str_of_int b → a = b.
Proof.
  unfold str_of_int. intros H.
  apply (f_equal NilZero.int_of_string) in H.
  destruct (to_int_nonnil a), (to_int_nonnil b).
  rewrite !NilZero.isi in H by done.
  apply to_int_inj. congruence.
Qed.

(** Two keys are the same string only for the same channel and number. *)
Lemma binding_key_inj chan n chan' n' :
  binding_key chan n = binding_key chan' n' ↔ chan = chan' ∧ n = n'.
Proof.
  split; [|by intros [-> ->]].
  intros H. apply (f_equal (split_str ":")) in H.
  rewrite !split_binding_key in H.
  injection H as Hc Hn. by apply str_of_int_inj in Hc, Hn.
Qed.

Example binding_key_3_10 : binding_key (2 + 1) 10 = "3:10"%string.
Proof. reflexivity. Qed.

Lemma handle_no_binding_cc w table channel control value :
  snapshot_map (self w) = VDict table →
  no_binding table "cc" (binding_key (channel + 1) control) →
  handle_midi_message (control_change channel control value) w = (Ret tt, w).
Proof.
  intros Htable Hno.
  destruct (get_no_binding _ _ _ Hno) as (section & Hget & Hkey).
  unfold handle_midi_message, lookup_action; monad.
  rewrite Htable, Hget; simpl. by rewrite Hkey.
Qed.

Lemma handle_no_binding_pc w table channel program :
  snapshot_map (self w) = VDict table →
  no_binding table "pc" (binding_key (channel + 1) program) →
  handle_midi_message (program_change channel program) w = (Ret tt, w).
Proof.
  intros Htable Hno.
  destruct (get_no_binding _ _ _ Hno) as (section & Hget & Hkey).
  unfold handle_midi_message, lookup_action; monad.
  rewrite Htable, Hget; simpl. by rewrite Hkey.
Qed.

Lemma receive_loop_cons msg later fin w :
  running (self w) = true →
  receive_loop (msg :: later) fin w
  = match handle_midi_message msg w with
    | (Ret _, w') => receive_loop later fin w'
    | (Raise e, w') => (Raise e, w')
    end.
Proof.
  intros Hrunning. cbn [receive_loop]. monad. by rewrite Hrunning.
Qed.

(** ** Claims about [handle_midi_message] *)

(** C1. For every decoded control-change message the lookup key is built
    from the logical channel, the wire channel plus one, and a key is hit by
    no other channel or controller. With the binding cc["3:10"] = "load:5", a
    control-change message on wire channel 2, controller 10, calls
    [preset_set_and_change] with index 5; the same message on wire channel 3
    (logical channel 4) finds no binding, and no method of the handler is
    called. *)
Theorem C1_lookup_by_logical_channel
    (w : World) (table cc : gmap string PyVal)
    (Htable : snapshot_map (self w) = VDict table)
    (Hcc : table !! "cc" = Some (VDict cc)) :
  (∀ channel control value,
     lookup_action (control_change channel control value) w
     = (Ret (Some (default VNone (cc !! binding_key (channel + 1) control))),
        w))
  ∧ (∀ channel control chan n,
       binding_key (channel + 1) control = binding_key chan n
       ↔ (channel + 1)%Z = chan ∧ control = n)
  ∧ (cc = {[ "3:10"%string := VStr "load:5" ]} →
     ∀ value,
       handler_calls (handle_midi_message (control_change 2 10 value) w).2
       = handler_calls w ++ [preset_set_and_change 5]
       ∧ handle_midi_message (control_change 3 10 value) w = (Ret tt, w)).
Proof.
  split; [|split].
  - intros. by apply lookup_control_change with table.
  - intros. apply binding_key_inj.
  - intros -> value. split.
    + rewrite (handle_bound _ _ _
        (lookup_control_change _ _ _ 2 10 value Htable Hcc)).
      change (binding_key (2 + 1) 10) with "3:10"%string.
      rewrite lookup_singleton_eq. simpl.
      by apply run_action_load with "5"%string.
    + rewrite (handle_bound _ _ _
        (lookup_control_change _ _ _ 3 10 value Htable Hcc)).
      change (binding_key (3 + 1) 10) with "4:10"%string.
      by rewrite lookup_singleton_ne.
Qed.

Lemma C1_witness :
  let w := registered (Loaded (config_with {[ "3:10"%string := VStr "load:5" ]}))
             "A" in
  handler_calls (handle_midi_message (control_change 2 10 127) w).2
  = [preset_set_and_change 5]
  ∧ handle_midi_message (control_change 3 10 127) w = (Ret tt, w).
Proof.
  intros w.
  refine (proj2 (proj2 (C1_lookup_by_logical_channel w
    {[ "cc"%string := VDict {[ "3:10"%string := VStr "load:5" ]} ]}
    {[ "3:10"%string := VStr "load:5" ]} _ _)) _ 127%Z);
    reflexivity.
Defined.

(** C8, as the code has it. A message that is neither a control change nor
    a program change makes [handle_midi_message] return with the world as it
    was: no method of the handler called, no exception, no record logged.
    So does a control-change or program-change message whose key has no
    binding, where the mapping table has its shape: [snapshot_map] is a
    mapping, and the section of the message's class is missing or is a
    mapping without the key. *)
Theorem C8_unbound_message_is_ignored (w : World) :
  (∀ type, handle_midi_message (other_message type) w = (Ret tt, w))
  ∧ (∀ table channel control value,
       snapshot_map (self w) = VDict table →
       no_binding table "cc" (binding_key (channel + 1) control) →
       handle_midi_message (control_change channel control value) w
       = (Ret tt, w))
  ∧ (∀ table channel program,
       snapshot_map (self w) = VDict table →
       no_binding table "pc" (binding_key (channel + 1) program) →
       handle_midi_message (program_change channel program) w = (Ret tt, w)).
Proof.
  split; [done|].
  split; intros; by eauto using handle_no_binding_cc, handle_no_binding_pc.
Qed.

Lemma C8_witness :
  let w := registered (Loaded (config_with {[ "3:10"%string := VStr "load:5" ]}))
             "A" in
  handle_midi_message (other_message "note_on") w = (Ret tt, w)
  ∧ handle_midi_message (control_change 0 7 64) w = (Ret tt, w)
  ∧ handle_midi_message (program_change 2 10) w = (Ret tt, w).
Proof.
  intros w.
  pose proof (C8_unbound_message_is_ignored w) as (Hother & Hcc & Hpc).
  split; [apply Hother|]. split.
  - apply (Hcc {[ "cc"%string := VDict {[ "3:10"%string := VStr "load:5" ]} ]});
      [reflexivity|].
    right. exists {[ "3:10"%string := VStr "load:5" ]}.
    split; reflexivity.
  - apply (Hpc {[ "cc"%string := VDict {[ "3:10"%string := VStr "load:5" ]} ]});
      [reflexivity|].
    left. reflexivity.
Defined.

(** The claim as stated fails. A section that the configuration leaves
    empty loads as [None]; construction accepts it, and a control change,
    bound to nothing, then makes the lookup raise instead of being ignored:
    the exception leaves [handle_midi_message] and ends the listener with a
    warning. *)
Lemma C8_counterexample :
  let w := registered
    (Loaded (VDict {[ "midi"%string :=
               VDict {[ "snapshot"%string :=
                  VDict {[ "cc"%string := VNone ]} ]} ]})) "A" in
  threads w
  = [ {| target := listen_to_all_midi_ports_target; alive := true |};
      {| target := monitor_midi_devices_target; alive := true |} ]
  ∧ handle_midi_message (control_change 0 1 0) w ≠ (Ret tt, w)
  ∧ handle_midi_message (control_change 0 1 0) w
    = (Raise (AttributeError "NoneType" "get"), w)
  ∧ log (listen_to_port "dev" (Opened [control_change 0 1 0] Closed) w).2
    = log w ++ [ (INFO, ListenActive "dev");
                 (WARNING, PortError "dev" (AttributeError "NoneType" "get"));
                 (INFO, ListenStop "dev") ].
Proof.
  vm_compute. split; [reflexivity|]. split; [discriminate|].
  split; reflexivity.
Qed.

(** C10. A bound action string that is not "next", not "previous" and does
    not start with "load:" makes [handle_midi_message] return with the world
    as it was: no method of the handler called, no exception, no record
    logged. *)
Theorem C10_unknown_action_is_ignored
    (w : World) (msg : Msg) (a : string)
    (Hbound : lookup_action msg w = (Ret (Some (VStr a)), w))
    (Hnext : a ≠ "next"%string)
    (Hprev : a ≠ "previous"%string)
    (Hload : String.prefix "load:" a = false) :
  handle_midi_message msg w = (Ret tt, w).
Proof.
  rewrite (handle_bound _ _ _ Hbound).
  destruct (negb (truthy (VStr a))); [done|].
  by apply run_action_unknown.
Qed.

Lemma C10_witness :
  let w := registered (Loaded (config_with {[ "3:10"%string := VStr "stop" ]}))
             "A" in
  handle_midi_message (control_change 2 10 127) w = (Ret tt, w).
Proof.
  intros w.
  apply (C10_unknown_action_is_ignored w _ "stop");
    [reflexivity|discriminate|discriminate|reflexivity].
Defined.

(** C6. A bound action string that is malformed (it starts with "load:"
    and [int] rejects its second field, as in "load:abc") does not make
    [handle_midi_message] raise: the failure is caught and logged as an
    error, no method of the handler is called, and the receive loop of the
    listener goes on with the messages that follow, from a world that
    differs by the logged record only. *)
Theorem C6_malformed_action_is_contained
    (w : World) (msg : Msg) (a field : string) (e : Exn)
    (Hbound : lookup_action msg w = (Ret (Some (VStr a)), w))
    (Hload : String.prefix "load:" a = true)
    (Hfield : split_str ":" a !! 1 = Some field)
    (Hint : int_of_str field = Raise e) :
  let w' := with_log (λ l, l ++ [(ERROR, ActionFailed (VStr a) e)]) w in
  handle_midi_message msg w = (Ret tt, w')
  ∧ handler_calls w' = handler_calls w
  ∧ ∀ later fin,
      running (self w) = true →
      receive_loop (msg :: later) fin w = receive_loop later fin w'.
Proof.
  intros w'.
  assert (handle_midi_message msg w = (Ret tt, w')) as Hrun.
  { rewrite (handle_bound _ _ _ Hbound).
    destruct (prefix_load_not_keyword a Hload) as (-> & _). simpl.
    by apply run_action_malformed with field. }
  split; [done|]. split; [done|].
  intros later fin Hrunning.
  by rewrite receive_loop_cons, Hrun.
Qed.

Lemma C6_witness :
  let w := registered (Loaded (config_with {[ "3:10"%string := VStr "load:abc" ]}))
             "A" in
  let w' :=
    with_log (λ l, l ++ [(ERROR, ActionFailed (VStr "load:abc")
                                   (ValueError "abc"))]) w in
  handle_midi_message (control_change 2 10 127) w = (Ret tt, w')
  ∧ handler_calls w' = handler_calls w
  ∧ ∀ later fin,
      running (self w) = true →
      receive_loop (control_change 2 10 127 :: later) fin w
      = receive_loop later fin w'.
Proof.
  intros w.
  apply (C6_malformed_action_is_contained w _ "load:abc" "abc"
           (ValueError "abc")); reflexivity.
Defined.

(** The malformed action of the example, followed by a well-formed one on
    the same device: the second message is dispatched. *)
Example malformed_then_next :
  let w := registered
    (Loaded (config_with {[ "3:10"%string := VStr "load:abc";
                            "3:11"%string := VStr "next" ]})) "A" in
  let r := receive_loop [control_change 2 10 127; control_change 2 11 127]
             Closed w in
  r.1 = Ret tt
  ∧ handler_calls r.2 = [preset_incr_and_change]
  ∧ log r.2 = log w ++ [(ERROR, ActionFailed (VStr "load:abc")
                                  (ValueError "abc"))].
Proof. vm_compute. done. Qed.

(** The three kinds of action, on a handler that returns, and a handler
    whose failure is caught and logged. *)
Example dispatch_examples :
  let w := registered
    (Loaded (config_with {[ "1:1"%string := VStr "next";
                            "1:2"%string := VStr "previous";
                            "1:3"%string := VStr "load: 7 " ]})) "A" in
  handler_calls
    (receive_loop [control_change 0 1 0; control_change 0 2 0;
                   control_change 0 3 0] Closed w).2
  = [preset_incr_and_change; preset_decr_and_change; preset_set_and_change 7].
Proof. reflexivity. Qed.

Example handler_failure_is_logged :
  let failing : Handler := λ _ _, Some (OtherException "RuntimeError") in
  let w := with_self (set_handler failing)
    (registered (Loaded (config_with {[ "1:1"%string := VStr "next" ]})) "A") in
  let r := handle_midi_message (control_change 0 1 0) w in
  r.1 = Ret tt
  ∧ handler_calls r.2 = [preset_incr_and_change]
  ∧ log r.2 = log w ++ [(ERROR, ActionFailed (VStr "next")
                                  (OtherException "RuntimeError"))].
Proof. vm_compute. done. Qed.

(** Outside the shape of the mapping table: a section that is present but
    is not a mapping (here [None], as an empty YAML section loads) makes the
    lookup itself raise. *)
Example null_section_raises :
  let w := with_self (set_snapshot_map (VDict {[ "cc"%string := VNone ]}))
    (registered (Failed FileNotFoundError) "A") in
  handle_midi_message (control_change 0 1 0) w
  = (Raise (AttributeError "NoneType" "get"), w).
Proof. reflexivity. Qed.

(** ** Start-up *)

(** C9. When no configuration file is found, construction does not fail:
    [load_config] returns an empty configuration (and logs a warning), the
    mapping table [snapshot_map] is empty, the plugin starts its listener
    and monitor threads, and no message has a binding. *)
Theorem C9_start_without_config_file :
  ∀ (h : Handler) (m : ModApi) (lvl : Level),
    let w0 := boot m lvl in
    let r := register_plugin h (Failed FileNotFoundError) w0 in
    load_config (Failed FileNotFoundError) w0
    = (Ret (VDict ∅), logged WARNING NoConfigFile w0)
    ∧ r.1 = Ret tt
    ∧ config (self r.2) = VDict ∅
    ∧ snapshot_map (self r.2) = VDict ∅
    ∧ running (self r.2) = true
    ∧ active_ports (self r.2) = ∅
    ∧ threads r.2
      = [ {| target := listen_to_all_midi_ports_target; alive := true |};
          {| target := monitor_midi_devices_target; alive := true |} ]
    ∧ ∀ msg, handle_midi_message msg r.2 = (Ret tt, r.2).
Proof.
  intros h m lvl w0 r.
  assert (snapshot_map (self r.2) = VDict ∅) as Hmap by by destruct lvl.
  split; [done|].
  repeat (split; [by destruct lvl|]).
  intros [channel control value|channel program|type]; [| |done].
  - by apply handle_no_binding_cc with ∅; [|left].
  - by apply handle_no_binding_pc with ∅; [|left].
Qed.

(** ** Next and previous snapshot *)

Lemma index_of_None x names : index_of x names = None ↔ x ∉ names.
Proof.
  induction names as [|n names IH]; simpl.
  - split; [intros _; apply not_elem_of_nil|done].
  - rewrite not_elem_of_cons. destruct (String.eqb_spec n x) as [->|Hne].
    + split; [done|]. by intros [? _].
    + destruct (index_of x names); simpl.
      * split; [done|]. intros [_ Hnot]. by apply IH in Hnot.
      * split; [|done]. intros _. split; [done|]. by apply IH.
Qed.

Lemma index_of_Some x names idx :
  index_of x names = Some idx →
  names !! idx = Some x ∧ ∀ j, j < idx → names !! j ≠ Some x.
Proof.
  revert idx. induction names as [|n names IH]; intros idx; simpl; [done|].
  destruct (String.eqb_spec n x) as [->|Hne].
  - intros [= <-]. split; [done|]. intros j Hj. lia.
  - destruct (index_of x names) as [i|]; simpl; [|done].
    intros [= <-]. destruct (IH i eq_refl) as [Hi Hfirst].
    split; [done|]. intros [|j] Hj; simpl; [congruence|].
    apply Hfirst. lia.
Qed.

Lemma next_idx_nat idx n :
  Z.to_nat ((Z.of_nat idx + 1) `mod` Z.of_nat n) = (idx + 1) mod n.
Proof.
  replace (Z.of_nat idx + 1)%Z with (Z.of_nat (idx + 1)) by lia.
  by rewrite <-Nat2Z.inj_mod, Nat2Z.id.
Qed.

Lemma prev_idx_nat idx n :
  idx < n →
  Z.to_nat ((Z.of_nat idx - 1 + Z.of_nat n) `mod` Z.of_nat n)
  = (idx + n - 1) mod n.
Proof.
  intros Hlt.
  replace (Z.of_nat idx - 1 + Z.of_nat n)%Z with (Z.of_nat (idx + n - 1))
    by lia.
  by rewrite <-Nat2Z.inj_mod, Nat2Z.id.
Qed.

Lemma item_fst {A B} (l : list (A * B)) i a b :
  l !! i = Some (a, b) → item l.*1 i = Ret a ∧ item l.*2 i = Ret b.
Proof.
  intros H. unfold item. rewrite !list_lookup_fmap, H. done.
Qed.

(** What the two methods do once the position of the current name is
    known. *)
Lemma load_next_snapshot_at w idx key name index :
  let inv := get_snapshot_list (modapi w) in
  index_of (get_current_snapshot_name (modapi w)) inv.*2 = Some idx →
  inv !! ((idx + 1) mod length inv) = Some (key, name) →
  py_int key = Ret index →
  load_next_snapshot w
  = (logging_info (NextSnapshot key name);; load_snapshot index) w.
Proof.
  intros inv Hidx Hsel Hint.
  destruct (item_fst _ _ _ _ Hsel) as [Hkey Hname].
  unfold load_next_snapshot; monad. fold inv. rewrite Hidx.
  rewrite length_fmap, next_idx_nat, Hkey, Hname.
  by rewrite Hint.
Qed.

Lemma load_previous_snapshot_at w idx key name index :
  let inv := get_snapshot_list (modapi w) in
  index_of (get_current_snapshot_name (modapi w)) inv.*2 = Some idx →
  inv !! ((idx + length inv - 1) mod length inv) = Some (key, name) →
  py_int key = Ret index →
  load_previous_snapshot w
  = (logging_info (PreviousSnapshot key name);; load_snapshot index) w.
Proof.
  intros inv Hidx Hsel Hint.
  destruct (item_fst _ _ _ _ Hsel) as [Hkey Hname].
  assert (idx < length inv) as Hlt.
  { apply index_of_Some in Hidx as [Hidx _].
    apply lookup_lt_Some in Hidx. by rewrite length_fmap in Hidx. }
  unfold load_previous_snapshot; monad. fold inv. rewrite Hidx.
  rewrite length_fmap, prev_idx_nat, Hkey, Hname by done.
  by rewrite Hint.
Qed.

Lemma modapi_calls_load msg index w :
  modapi_calls ((logging_info msg;; load_snapshot index) w).2
  = modapi_calls w ++ [index].
Proof.
  unfold load_snapshot, modapi_load_snapshot; monad.
  autorewrite with world.
  destruct (load_snapshot_raises _ _); simpl;
    by autorewrite with world.
Qed.

(** C2. [load_next_snapshot] and [load_previous_snapshot] select the entry
    one position after and before the current name in the iteration order
    of the inventory's values, modulo the number of entries, and so wrap
    around at both ends. For the inventory {0:"A", 1:"B", 2:"C"}: with
    current name "C", [load_next_snapshot] loads index 0; with current name
    "A", [load_previous_snapshot] loads index 2. *)
Theorem C2_next_and_previous_wrap_around :
  (∀ w idx key name index,
     let inv := get_snapshot_list (modapi w) in
     index_of (get_current_snapshot_name (modapi w)) inv.*2 = Some idx →
     inv !! ((idx + 1) mod length inv) = Some (key, name) →
     py_int key = Ret index →
     modapi_calls (load_next_snapshot w).2 = modapi_calls w ++ [index])
  ∧ (∀ w idx key name index,
       let inv := get_snapshot_list (modapi w) in
       index_of (get_current_snapshot_name (modapi w)) inv.*2 = Some idx →
       inv !! ((idx + length inv - 1) mod length inv) = Some (key, name) →
       py_int key = Ret index →
       modapi_calls (load_previous_snapshot w).2 = modapi_calls w ++ [index])
  ∧ (∀ w,
       get_snapshot_list (modapi w) = inventory_ABC →
       (get_current_snapshot_name (modapi w) = "C"%string →
        modapi_calls (load_next_snapshot w).2 = modapi_calls w ++ [0%Z])
       ∧ (get_current_snapshot_name (modapi w) = "A"%string →
          modapi_calls (load_previous_snapshot w).2
          = modapi_calls w ++ [2%Z])).
Proof.
  split; [|split].
  - intros w idx key name index inv Hidx Hsel Hint.
    rewrite (load_next_snapshot_at w idx key name index Hidx Hsel Hint).
    apply modapi_calls_load.
  - intros w idx key name index inv Hidx Hsel Hint.
    rewrite (load_previous_snapshot_at w idx key name index Hidx Hsel Hint).
    apply modapi_calls_load.
  - intros w Hinv. split; intros Hcur.
    + rewrite (load_next_snapshot_at w 2 (VInt 0) "A" 0);
        [apply modapi_calls_load|by rewrite ?Hinv, ?Hcur..].
    + rewrite (load_previous_snapshot_at w 0 (VInt 2) "C" 2);
        [apply modapi_calls_load|by rewrite ?Hinv, ?Hcur..].
Qed.

Lemma C2_witness :
  modapi_calls (load_next_snapshot (registered (Failed FileNotFoundError) "C")).2
  = [0%Z]
  ∧ modapi_calls
      (load_previous_snapshot (registered (Failed FileNotFoundError) "A")).2
    = [2%Z]
  ∧ modapi_calls (load_next_snapshot (registered (Failed FileNotFoundError) "A")).2
    = [1%Z].
Proof.
  destruct C2_next_and_previous_wrap_around as (Hnext & Hprev & Habc).
  split; [|split].
  - apply (Habc (registered (Failed FileNotFoundError) "C"));
      reflexivity.
  - apply (Habc (registered (Failed FileNotFoundError) "A"));
      reflexivity.
  - apply (Hnext (registered (Failed FileNotFoundError) "A") 0 (VInt 1) "B");
      reflexivity.
Defined.

(** C7. If the current snapshot name is not among the values of the
    inventory, [load_next_snapshot] and [load_previous_snapshot] do
    nothing: no call of [load_snapshot], no exception, the world as it
    was. *)
Theorem C7_unknown_current_name_is_noop
    (w : World)
    (Habsent : get_current_snapshot_name (modapi w)
               ∉ (get_snapshot_list (modapi w)).*2) :
  load_next_snapshot w = (Ret tt, w)
  ∧ load_previous_snapshot w = (Ret tt, w).
Proof.
  apply index_of_None in Habsent.
  unfold load_next_snapshot, load_previous_snapshot; monad.
  by rewrite Habsent.
Qed.

Lemma C7_witness :
  let w := registered (Failed FileNotFoundError) "Z" in
  load_next_snapshot w = (Ret tt, w)
  ∧ load_previous_snapshot w = (Ret tt, w).
Proof.
  intros w. apply (C7_unknown_current_name_is_noop w).
  apply (bool_decide_unpack _). by vm_compute.
Defined.

(** ** Steps that keep the registry and the threads *)

Lemma frame_refl w : frame w w.
Proof. done. Qed.

Lemma frame_trans w1 w2 w3 : frame w1 w2 → frame w2 w3 → frame w1 w3.
Proof. intros [? ?] [? ?]. split; congruence. Qed.

Lemma keeps_ret {A} (a : A) : keeps (mret a).
Proof. intros w. apply frame_refl. Qed.

Lemma keeps_raise {A} e : keeps (@raise A e).
Proof. intros w. apply frame_refl. Qed.

Lemma keeps_lift {A} (r : Res A) : keeps (lift r).
Proof. intros w. apply frame_refl. Qed.

Lemma keeps_gets {A} (f : World → A) : keeps (gets f).
Proof. intros w. apply frame_refl. Qed.

Lemma keeps_bind {A B} (m : M A) (f : A → M B) :
  keeps m → (∀ a, keeps (f a)) → keeps (m ≫= f).
Proof.
  intros Hm Hf w. specialize (Hm w). unfold mbind, M_bind.
  destruct (m w) as [[a|e] w']; [|done].
  eapply frame_trans; [done|apply Hf].
Qed.

Lemma keeps_try_except {A} (body : M A) catches on_error :
  keeps body → (∀ e, keeps (on_error e)) →
  keeps (try_except body catches on_error).
Proof.
  intros Hbody Hon w. specialize (Hbody w). unfold try_except.
  destruct (body w) as [[a|e] w']; [done|].
  destruct (catches e); [|done].
  eapply frame_trans; [done|apply Hon].
Qed.

Lemma keeps_try_finally {A} (body : M A) final :
  keeps body → keeps final → keeps (try_finally body final).
Proof.
  intros Hbody Hfinal w. specialize (Hbody w). unfold try_finally.
  destruct (body w) as [r w']. specialize (Hfinal w').
  destruct (final w') as [[[]|e] w'']; by eapply frame_trans.
Qed.

Lemma keeps_logging_log lvl msg : keeps (logging_log lvl msg).
Proof.
  intros w. unfold logging_log, modify, frame. simpl.
  by autorewrite with world.
Qed.

Lemma keeps_call_handler c : keeps (call_handler c).
Proof. intros w. unfold call_handler. by destruct (handler _ _ _). Qed.

Lemma keeps_if {A} (b : bool) (m1 m2 : M A) :
  keeps m1 → keeps m2 → keeps (if b then m1 else m2).
Proof. by destruct b. Qed.

Create HintDb keeps.
#[local] Hint Resolve keeps_ret keeps_raise keeps_lift keeps_gets
  keeps_logging_log keeps_call_handler : keeps.
#[local] Hint Extern 2 (keeps (_ ≫= _)) =>
  apply keeps_bind; [|intros ?] : keeps.
#[local] Hint Extern 2 (keeps (try_except _ _ _)) =>
  apply keeps_try_except; [|intros ?] : keeps.
#[local] Hint Extern 2 (keeps (try_finally _ _)) =>
  apply keeps_try_finally : keeps.
#[local] Hint Extern 2 (keeps (if _ then _ else _)) =>
  apply keeps_if : keeps.
#[local] Hint Extern 1 (keeps (logging_info _)) =>
  apply keeps_logging_log : keeps.
#[local] Hint Extern 1 (keeps (logging_warning _)) =>
  apply keeps_logging_log : keeps.
#[local] Hint Extern 1 (keeps (logging_error _)) =>
  apply keeps_logging_log : keeps.

Lemma keeps_run_action action : keeps (run_action action).
Proof. unfold run_action. auto 20 with keeps. Qed.

Lemma keeps_lookup_action msg : keeps (lookup_action msg).
Proof. intros w. by rewrite lookup_action_world. Qed.

Lemma keeps_handle_midi_message msg : keeps (handle_midi_message msg).
Proof.
  unfold handle_midi_message.
  apply keeps_bind; [apply keeps_lookup_action|].
  intros [action|]; auto using keeps_run_action with keeps.
Qed.

Lemma keeps_receive_loop msgs fin : keeps (receive_loop msgs fin).
Proof.
  induction msgs as [|msg later IH]; simpl.
  - destruct fin; auto with keeps.
  - auto 10 using keeps_handle_midi_message with keeps.
Qed.

Lemma keeps_listen_to_port port_name port :
  keeps (listen_to_port port_name port).
Proof.
  unfold listen_to_port.
  destruct port; auto 10 using keeps_receive_loop with keeps.
Qed.

(** ** The listener registry *)

(** [start_listening_to_port] in one equation. *)
Lemma start_listening_to_port_run port_name w :
  start_listening_to_port port_name w
  = (Ret tt,
     if from_option (is_alive w) false (active_ports (self w) !! port_name)
     then w else spawned port_name w).
Proof.
  unfold start_listening_to_port; monad.
  by destruct (from_option _ _ _).
Qed.

Lemma threads_spawned port_name w :
  threads (spawned port_name w)
  = threads w ++ [{| target := listen_to_port_target port_name;
                     alive := true |}].
Proof. unfold spawned. by autorewrite with world. Qed.

Lemma active_ports_spawned port_name w :
  active_ports (self (spawned port_name w))
  = <[port_name := length (threads w)]> (active_ports (self w)).
Proof.
  unfold spawned. autorewrite with world. simpl.
  apply insert_delete_eq.
Qed.

Lemma is_alive_spawned_new port_name w :
  is_alive (spawned port_name w) (length (threads w)) = true.
Proof.
  unfold is_alive. rewrite threads_spawned.
  by rewrite lookup_app_r, Nat.sub_diag.
Qed.

Lemma is_alive_lt w thread : is_alive w thread = true → thread < length (threads w).
Proof.
  unfold is_alive. destruct (threads w !! thread) eqn:H; [|done].
  intros _. by apply lookup_lt_Some in H.
Qed.

Lemma live_entry_spawned port_name w : live_entry (spawned port_name w) port_name.
Proof.
  exists (length (threads w)). rewrite active_ports_spawned.
  split; [apply lookup_insert_eq|apply is_alive_spawned_new].
Qed.

Lemma start_live port_name w :
  live_entry w port_name →
  start_listening_to_port port_name w = (Ret tt, w).
Proof.
  intros (thread & Hentry & Halive).
  rewrite start_listening_to_port_run, Hentry. simpl. by rewrite Halive.
Qed.

Lemma start_not_live port_name w :
  ¬ live_entry w port_name →
  start_listening_to_port port_name w = (Ret tt, spawned port_name w).
Proof.
  intros Hnot. rewrite start_listening_to_port_run.
  destruct (active_ports (self w) !! port_name) as [thread|] eqn:Hentry;
    simpl; [|done].
  destruct (is_alive w thread) eqn:Halive; [|done].
  destruct Hnot. by exists thread.
Qed.

Lemma live_entry_start port_name w :
  live_entry (start_listening_to_port port_name w).2 port_name.
Proof.
  rewrite start_listening_to_port_run.
  destruct (active_ports (self w) !! port_name) as [thread|] eqn:Hentry;
    simpl; [|apply live_entry_spawned].
  destruct (is_alive w thread) eqn:Halive; [|apply live_entry_spawned].
  by exists thread.
Qed.

(** C5. [start_listening_to_port] is idempotent on live listeners. After a
    call the registry has an entry for the device whose thread is alive; a
    second call in succession, and any call made while the registered
    thread is alive, leaves the world as it is, so that one live listener
    stays registered; an entry whose thread has died is replaced by a new
    thread, alive, that listens to the same device. *)
Theorem C5_start_listening_is_idempotent (w : World) (port_name : string) :
  let w1 := (start_listening_to_port port_name w).2 in
  live_entry w1 port_name
  ∧ start_listening_to_port port_name w1 = (Ret tt, w1)
  ∧ (live_entry w port_name →
     start_listening_to_port port_name w = (Ret tt, w))
  ∧ (∀ thread,
       active_ports (self w) !! port_name = Some thread →
       is_alive w thread = false →
       threads w1
       = threads w ++ [{| target := listen_to_port_target port_name;
                          alive := true |}]
       ∧ active_ports (self w1)
         = <[port_name := length (threads w)]> (active_ports (self w))
       ∧ is_alive w1 (length (threads w)) = true).
Proof.
  intros w1.
  assert (live_entry w1 port_name) as Hlive by apply live_entry_start.
  split; [done|].
  split; [by apply start_live|].
  split; [apply start_live|].
  intros thread Hentry Hdead. subst w1.
  rewrite start_listening_to_port_run, Hentry. simpl. rewrite Hdead.
  auto using threads_spawned, active_ports_spawned, is_alive_spawned_new.
Qed.

Lemma C5_witness :
  let w := (listen_to_all_midi_ports ["dev"%string]
              (registered (Failed FileNotFoundError) "A")).2 in
  let dead := (listener_thread 2 (OpenFails (OtherException "IOError")) w).2 in
  let again := (start_listening_to_port "dev" dead).2 in
  start_listening_to_port "dev" w = (Ret tt, w)
  ∧ active_ports (self w) !! "dev"%string = Some 2
  ∧ active_ports (self again) = <[ "dev"%string := 3 ]> (active_ports (self dead))
  ∧ is_alive again 3 = true.
Proof.
  intros w dead again.
  split; [|split; [reflexivity|]].
  - apply (proj1 (proj2 (proj2
      (C5_start_listening_is_idempotent w "dev")))).
    exists 2. split; reflexivity.
  - apply (proj2 (proj2 (proj2 (proj2
      (C5_start_listening_is_idempotent dead "dev"))) 2 eq_refl eq_refl)).
Defined.

Lemma listener_thread_run thread port port_name w :
  target <$> threads w !! thread = Some (listen_to_port_target port_name) →
  ∃ w1,
    frame w w1
    ∧ (listener_thread thread port w).2
      = with_threads
          (alter (λ th, {| target := target th; alive := false |}) thread) w1.
Proof.
  intros Hthread. unfold listener_thread. rewrite Hthread.
  pose proof (keeps_listen_to_port port_name port w) as Hframe.
  unfold try_finally, thread_exit, modify.
  destruct (listen_to_port port_name port w) as [r w1]. by exists w1.
Qed.

(** C3, as the code has it. When the read loop of a listener exits (the
    stream could not be opened, a read failed, or the loop ended), the
    exiting listener does not touch [active_ports]: the entry for its device
    stays in the registry and names a thread that is no longer alive. Such an
    entry does not prevent a restart: the next [start_listening_to_port] for
    the device starts a new listener. *)
Theorem C3_listener_exit_keeps_registry
    (w : World) (thread : nat) (port_name : string) (port : Port)
    (Hthread : target <$> threads w !! thread
               = Some (listen_to_port_target port_name)) :
  let w' := (listener_thread thread port w).2 in
  active_ports (self w') = active_ports (self w)
  ∧ is_alive w' thread = false
  ∧ (active_ports (self w) !! port_name = Some thread →
     start_listening_to_port port_name w'
     = (Ret tt, spawned port_name w')).
Proof.
  intros w'.
  destruct (listener_thread_run thread port port_name w Hthread)
    as (w1 & [Hself Hthreads] & Hw').
  fold w' in Hw'.
  assert (active_ports (self w') = active_ports (self w)) as Hports.
  { rewrite Hw'. simpl. by rewrite Hself. }
  assert (is_alive w' thread = false) as Hdead.
  { unfold is_alive. rewrite Hw'. simpl.
    rewrite list_lookup_alter_eq. by destruct (threads w1 !! thread). }
  split; [done|]. split; [done|].
  intros Hentry. apply start_not_live.
  intros (t & Ht & Halive). rewrite Hports in Ht. congruence.
Qed.

Lemma C3_witness :
  let w := (listen_to_all_midi_ports ["dev"%string]
              (registered (Failed FileNotFoundError) "A")).2 in
  let w' := (listener_thread 2 (Opened [control_change 0 1 2] Closed) w).2 in
  active_ports (self w') = active_ports (self w)
  ∧ is_alive w' 2 = false
  ∧ (active_ports (self w) !! "dev"%string = Some 2 →
     start_listening_to_port "dev" w' = (Ret tt, spawned "dev" w')).
Proof.
  intros w.
  apply (C3_listener_exit_keeps_registry w 2 "dev"). reflexivity.
Defined.

(** The claim as stated fails: whichever way the loop exits, the entry of
    the device is still in the registry afterwards. *)
Lemma C3_counterexample :
  let w := (listen_to_all_midi_ports ["dev"%string]
              (registered (Failed FileNotFoundError) "A")).2 in
  let after port := active_ports (self (listener_thread 2 port w).2) in
  after (OpenFails (OtherException "IOError")) !! "dev"%string ≠ None
  ∧ after (Opened [] (ReadError (OtherException "IOError"))) !! "dev"%string
    ≠ None
  ∧ after (Opened [other_message "note_on"] Closed) !! "dev"%string ≠ None.
Proof. vm_compute. repeat split; discriminate. Qed.

(** ** The monitor *)

Lemma is_alive_prefix w w' thread :
  threads w `prefix_of` threads w' →
  thread < length (threads w) →
  is_alive w' thread = is_alive w thread.
Proof.
  intros Hprefix Hlt. unfold is_alive.
  destruct (lookup_lt_is_Some_2 _ _ Hlt) as [th Hth].
  by rewrite Hth, (prefix_lookup_Some _ _ _ _ Hth Hprefix).
Qed.

Lemma live_entry_prefix w w' port_name :
  threads w `prefix_of` threads w' →
  active_ports (self w') !! port_name = active_ports (self w) !! port_name →
  live_entry w port_name → live_entry w' port_name.
Proof.
  intros Hprefix Hsame (thread & Hentry & Halive).
  exists thread. split; [congruence|].
  rewrite (is_alive_prefix w w') by eauto using is_alive_lt. done.
Qed.

(** What one turn of the first loop does. *)
Lemma on_new_port_spec port w :
  let r := on_new_port port w in
  r.1 = Ret tt
  ∧ live_entry r.2 port
  ∧ (∀ p, p ≠ port →
       active_ports (self r.2) !! p = active_ports (self w) !! p)
  ∧ (∀ p, live_entry w p → live_entry r.2 p)
  ∧ threads w `prefix_of` threads r.2.
Proof.
  unfold on_new_port; monad.
  set (w0 := logged INFO (NewPort port) w).
  assert (self w0 = self w ∧ threads w0 = threads w) as [Hself Hthreads]
    by (unfold w0; by autorewrite with world).
  pose proof (live_entry_start port w0) as Hlive.
  rewrite start_listening_to_port_run in *. simpl in *.
  destruct (from_option _ _ _) eqn:Hcase.
  - repeat split; try done.
    + intros p _. by rewrite Hself.
    + intros p. apply live_entry_prefix; by rewrite ?Hself, ?Hthreads.
    + by rewrite Hthreads.
  - assert (threads w `prefix_of` threads (spawned port w0)) as Hprefix.
    { rewrite threads_spawned, Hthreads. by apply prefix_app_r. }
    assert (∀ p, p ≠ port →
              active_ports (self (spawned port w0)) !! p
              = active_ports (self w) !! p) as Hother.
    { intros p Hne. rewrite active_ports_spawned, Hself.
      by apply lookup_insert_ne. }
    repeat split; try done.
    intros p Hp. destruct (decide (p = port)) as [->|Hne]; [done|].
    apply (live_entry_prefix w); auto.
Qed.

Lemma for_each_on_new_port l w :
  let r := for_each l on_new_port w in
  r.1 = Ret tt
  ∧ (∀ p, p ∈ l → live_entry r.2 p)
  ∧ (∀ p, p ∉ l →
       active_ports (self r.2) !! p = active_ports (self w) !! p)
  ∧ (∀ p, live_entry w p → live_entry r.2 p)
  ∧ threads w `prefix_of` threads r.2.
Proof.
  revert w. induction l as [|port l IH]; intros w; simpl.
  - repeat split; try done. intros p Hp. by apply elem_of_nil in Hp.
  - destruct (on_new_port_spec port w) as (Hret & Hnew & Hother & Hkeep & Hpre).
    unfold mbind, M_bind.
    destruct (on_new_port port w) as [r1 w1]. simpl in *. subst r1.
    destruct (IH w1) as (Hret' & Hin' & Hother' & Hkeep' & Hpre').
    split; [done|]. split; [|split; [|split]].
    + intros p [->|Hp]%elem_of_cons; auto.
    + intros p [Hne Hp]%not_elem_of_cons.
      rewrite Hother' by done. by apply Hother.
    + auto.
    + by etrans.
Qed.

Lemma for_each_on_removed_port l w :
  let r := for_each l on_removed_port w in
  r.1 = Ret tt
  ∧ (∀ p, p ∈ l → active_ports (self r.2) !! p = None)
  ∧ (∀ p, p ∉ l →
       active_ports (self r.2) !! p = active_ports (self w) !! p)
  ∧ threads r.2 = threads w.
Proof.
  revert w. induction l as [|port l IH]; intros w; simpl.
  - repeat split; try done. intros p Hp. by apply elem_of_nil in Hp.
  - unfold on_removed_port at 1; monad.
    set (w1 := with_self _ _).
    assert (active_ports (self w1) = delete port (active_ports (self w)))
      as Hports by (unfold w1; simpl; by autorewrite with world).
    assert (threads w1 = threads w) as Hthreads
      by (unfold w1; simpl; by autorewrite with world).
    destruct (IH w1) as (Hret & Hin & Hout & Hthreads').
    split; [done|]. split; [|split].
    + intros p Hp. destruct (decide (p ∈ l)) as [Hl|Hl]; [by apply Hin|].
      apply elem_of_cons in Hp as [->|Hp]; [|done].
      rewrite Hout, Hports by done. apply lookup_delete_eq.
    + intros p [Hne Hp]%not_elem_of_cons.
      rewrite Hout, Hports by done. by apply lookup_delete_ne.
    + congruence.
Qed.

(** The two loops of one turn, in terms of the difference between the
    two enumerations. *)
Lemma monitor_loops_spec (current_ports previous_ports : gset string) w :
  let r := (for_each (elements (current_ports ∖ previous_ports)) on_new_port;;
            for_each (elements (previous_ports ∖ current_ports))
              on_removed_port;;
            mret current_ports) w in
  r.1 = Ret current_ports
  ∧ (∀ p, p ∈ current_ports → p ∉ previous_ports → live_entry r.2 p)
  ∧ (∀ p, p ∈ previous_ports → p ∉ current_ports →
       active_ports (self r.2) !! p = None)
  ∧ (∀ p, (p ∈ current_ports ↔ p ∈ previous_ports) →
       active_ports (self r.2) !! p = active_ports (self w) !! p)
  ∧ threads w `prefix_of` threads r.2.
Proof.
  unfold mbind, M_bind, mret, M_ret.
  destruct (for_each_on_new_port (elements (current_ports ∖ previous_ports)) w)
    as (Hret1 & Hnew & Hother1 & _ & Hpre1).
  destruct (for_each _ on_new_port w) as [r1 w1]. simpl in *. subst r1.
  destruct (for_each_on_removed_port
              (elements (previous_ports ∖ current_ports)) w1)
    as (Hret2 & Hgone & Hother2 & Hthreads2).
  destruct (for_each _ on_removed_port w1) as [r2 w2]. simpl in *. subst r2.
  simpl. split; [done|].
  assert (∀ p, p ∉ previous_ports ∖ current_ports →
            active_ports (self w2) !! p = active_ports (self w1) !! p)
    as Hkeep2.
  { intros p Hp. apply Hother2. by rewrite elem_of_elements. }
  assert (∀ p, p ∉ current_ports ∖ previous_ports →
            active_ports (self w1) !! p = active_ports (self w) !! p)
    as Hkeep1.
  { intros p Hp. apply Hother1. by rewrite elem_of_elements. }
  split; [|split; [|split]].
  - intros p Hcur Hprev.
    apply (live_entry_prefix w1).
    + by rewrite Hthreads2.
    + apply Hkeep2. rewrite elem_of_difference. tauto.
    + apply Hnew. by rewrite elem_of_elements, elem_of_difference.
  - intros p Hprev Hcur. apply Hgone.
    by rewrite elem_of_elements, elem_of_difference.
  - intros p Hiff.
    rewrite Hkeep2, Hkeep1; [done|rewrite elem_of_difference; tauto..].
  - by rewrite Hthreads2.
Qed.

Lemma monitor_cycle_run names previous_ports w :
  ∃ w0,
    self w0 = self w ∧ threads w0 = threads w
    ∧ monitor_cycle names previous_ports w
      = (for_each (elements (list_to_set names ∖ previous_ports)) on_new_port;;
         for_each (elements (previous_ports ∖ list_to_set names))
           on_removed_port;;
         mret (list_to_set names)) w0.
Proof.
  unfold monitor_cycle. unfold mbind at 1 2. unfold M_bind at 1 2.
  unfold gets. simpl.
  destruct (truthy (verbose (self w))).
  - exists (logged DEBUG (PeriodicScan (list_to_set names)) w).
    by autorewrite with world.
  - by exists w.
Qed.

(** The monitor over two turns: "new" appears, then "dev" disappears. *)
Example monitor_two_turns :
  let w := (listen_to_all_midi_ports ["dev"%string]
              (registered (Failed FileNotFoundError) "A")).2 in
  let r := monitor_midi_devices ["dev"%string]
             [["dev"; "new"]%string; ["new"%string]] w in
  r.1 = Ret tt
  ∧ map_to_list (active_ports (self r.2)) = [("new"%string, 3)]
  ∧ log r.2 = log w ++ [(INFO, MonitorStarted); (INFO, NewPort "new");
                         (INFO, ListenStart "new"); (INFO, PortRemoved "dev")].
Proof. vm_compute. done. Qed.

(** The claim as stated fails. The device "dev" is visible at start-up
    and at the next enumeration, and its listener has exited, here because
    the device could not be opened: the device is neither new nor removed,
    the turn leaves its entry as it is, and the registry holds no live entry
    for a visible device. *)
Lemma C4_counterexample :
  let w := (listen_to_all_midi_ports ["dev"%string]
              (registered (Failed FileNotFoundError) "A")).2 in
  let dead := (listener_thread 2 (OpenFails (OtherException "IOError")) w).2 in
  ¬ registry_exact (monitor_cycle ["dev"%string] {[ "dev"%string ]} dead).2
      (list_to_set ["dev"%string]).
Proof.
  intros w dead Hexact.
  destruct (Hexact "dev"%string) as [Hlive _].
  destruct Hlive as (thread & Hentry & Halive).
  { apply elem_of_list_to_set, list_elem_of_singleton. done. }
  vm_compute in Hentry. injection Hentry as <-.
  vm_compute in Halive. discriminate.
Qed.

(** * Further properties of the code *)

(** ** Dispatch *)

Lemma parse_action_load a c :
  String.prefix "load:" a = true →
  parse_action a = Some c →
  ∃ field index,
    split_str ":" a !! 1 = Some field
    ∧ int_of_str field = Ret index
    ∧ c = preset_set_and_change index.
Proof.
  intros Hload. unfold parse_action.
  destruct (prefix_load_not_keyword a Hload) as (_ & Hnext & Hprev).
  simpl in Hnext, Hprev. rewrite Hnext, Hprev, Hload.
  destruct (split_str ":" a !! 1) as [field|]; [|done].
  destruct (int_of_str field) as [index|] eqn:Hint; [|done].
  intros [= <-]. by exists field, index.
Qed.

(** The body of the [try] statement for an action that stands for a
    call: the call is made, and that is all the body does. *)
Lemma run_action_parsed a c w :
  parse_action a = Some c →
  run_action (VStr a) w
  = try_except (call_handler c) is_Exception
      (λ e, logging_error (ActionFailed (VStr a) e)) w.
Proof.
  intros Hparse. unfold run_action, try_except, item; monad.
  destruct (String.eqb a "next") eqn:Hnext.
  { unfold parse_action in Hparse. rewrite Hnext in Hparse. by simplify_eq. }
  destruct (String.eqb a "previous") eqn:Hprev.
  { unfold parse_action in Hparse. rewrite Hnext, Hprev in Hparse.
    by simplify_eq. }
  destruct (String.prefix "load:" a) eqn:Hload.
  - destruct (parse_action_load a c Hload Hparse)
      as (field & index & Hfield & Hint & ->).
    by rewrite Hfield, Hint.
  - unfold parse_action in Hparse.
    by rewrite Hnext, Hprev, Hload in Hparse.
Qed.

Lemma parse_action_truthy a c : parse_action a = Some c → truthy (VStr a) = true.
Proof. by destruct a. Qed.

(** X1. A message bound to an action string that stands for a call makes
    exactly that call. If the handler returns, nothing else changes; if it
    raises an [Exception], the failure is caught and logged as an error and
    the method returns; an exception of another class leaves the method. *)
Theorem handle_bound_action_calls_handler
    (w : World) (msg : Msg) (a : string) (c : HandlerCall)
    (Hbound : lookup_action msg w = (Ret (Some (VStr a)), w))
    (Hparse : parse_action a = Some c) :
  let called := with_handler_calls (λ l, l ++ [c]) w in
  handle_midi_message msg w
  = match handler (self w) (handler_calls w) c with
    | None => (Ret tt, called)
    | Some e =>
        if is_Exception e
        then (Ret tt,
              with_log (λ l, l ++ [(ERROR, ActionFailed (VStr a) e)]) called)
        else (Raise e, called)
    end.
Proof.
  intros called.
  rewrite (handle_bound _ _ _ Hbound), (parse_action_truthy a c Hparse).
  simpl. rewrite (run_action_parsed a c w Hparse).
  unfold try_except, call_handler. fold called.
  destruct (handler (self w) (handler_calls w) c) as [e|]; [|done].
  destruct (is_Exception e); [|done].
  monad. by rewrite logged_ERROR.
Qed.

Lemma handle_bound_action_calls_handler_witness :
  let failing : Handler := λ _ _, Some (OtherException "RuntimeError") in
  let w := with_self (set_handler failing)
    (registered (Loaded (config_with {[ "1:1"%string := VStr "previous" ]}))
       "A") in
  handle_midi_message (control_change 0 1 0) w
  = (Ret tt,
     with_log (λ l, l ++ [(ERROR, ActionFailed (VStr "previous")
                                    (OtherException "RuntimeError"))])
       (with_handler_calls (λ l, l ++ [preset_decr_and_change]) w)).
Proof.
  intros failing w.
  apply (handle_bound_action_calls_handler w _ "previous"
           preset_decr_and_change); reflexivity.
Defined.

Lemma not_Exception e : is_Exception e = false → ∃ name, e = NonException name.
Proof. destruct e; try done. by eauto. Qed.

Lemma call_handler_effects c w :
  handler_calls (call_handler c w).2 = handler_calls w ++ [c]
  ∧ modapi_calls (call_handler c w).2 = modapi_calls w
  ∧ log (call_handler c w).2 = log w.
Proof. unfold call_handler. by destruct (handler _ _ _). Qed.

(** What [try: body / except Exception: log] adds to its body: the result
    is contained, and the world differs from the body's by the log only. *)
Lemma try_log_contained (body : M unit) msg w :
  let r := try_except body is_Exception (λ e, logging_error (msg e)) w in
  contained r.1
  ∧ handler_calls r.2 = handler_calls (body w).2
  ∧ modapi_calls r.2 = modapi_calls (body w).2.
Proof.
  unfold try_except.
  destruct (body w) as [[[]|e] w']; simpl; [by repeat split; left|].
  destruct (is_Exception e) eqn:He; simpl.
  - monad. autorewrite with world. by repeat split; left.
  - destruct (not_Exception e He) as [name ->].
    repeat split. right. by exists name.
Qed.

Lemma run_action_effects action w :
  let r := run_action action w in
  contained r.1
  ∧ (∃ calls, handler_calls r.2 = handler_calls w ++ calls ∧ length calls ≤ 1)
  ∧ modapi_calls r.2 = modapi_calls w.
Proof.
  unfold run_action.
  match goal with
  | |- context [try_except ?b _ _] => set (body := b)
  end.
  destruct (try_log_contained body (ActionFailed action) w)
    as (Hres & Hcalls & Hmod).
  split; [done|]. rewrite Hcalls, Hmod. clear Hres Hcalls Hmod.
  assert (∀ c, (∃ calls,
              handler_calls (call_handler c w).2 = handler_calls w ++ calls
              ∧ length calls ≤ 1)
            ∧ modapi_calls (call_handler c w).2 = modapi_calls w) as Hcall.
  { intros c. destruct (call_handler_effects c w) as (Hc & Hm & _).
    split; [|done]. exists [c]. split; [done|simpl; lia]. }
  assert ((∃ calls, handler_calls w = handler_calls w ++ calls
                    ∧ length calls ≤ 1)
          ∧ modapi_calls w = modapi_calls w) as Hnone.
  { split; [|done]. exists []. split; [by rewrite app_nil_r|simpl; lia]. }
  unfold body; monad.
  destruct (eq_str action "next"); [apply Hcall|].
  destruct (eq_str action "previous"); [apply Hcall|].
  destruct (startswith action "load:") as [[]|]; simpl; [|done..].
  destruct (split action ":") as [fields|]; simpl; [|done].
  destruct (item fields 1) as [field|]; simpl; [|done].
  destruct (int_of_str field); simpl; [apply Hcall|done].
Qed.


(** Whatever the table, a message makes at most one call to the handler
    and none to the snapshot inventory. *)
Lemma handle_calls msg w :
  let r := handle_midi_message msg w in
  (∃ calls, handler_calls r.2 = handler_calls w ++ calls ∧ length calls ≤ 1)
  ∧ modapi_calls r.2 = modapi_calls w.
Proof.
  assert ((∃ calls, handler_calls w = handler_calls w ++ calls
                    ∧ length calls ≤ 1)
          ∧ modapi_calls w = modapi_calls w) as Hnone.
  { split; [|done]. exists []. split; [by rewrite app_nil_r|simpl; lia]. }
  unfold handle_midi_message, mbind, M_bind.
  pose proof (lookup_action_world msg w) as Hw.
  destruct (lookup_action msg w) as [[found|e] w']; simpl in Hw; subst w';
    [|done].
  destruct found as [action|]; [|done].
  destruct (truthy action); simpl; [apply run_action_effects|done].
Qed.





(** ** Printing and reading an index *)

Lemma digits_of_uint_acc d acc :
  digits (Z.pos acc) true (list_ascii_of_string (NilEmpty.string_of_uint d))
  = Some (Z.pos (Pos.of_uint_acc d acc)).
Proof.
  revert acc.
  induction d as [|d IH|d IH|d IH|d IH|d IH|d IH|d IH|d IH|d IH|d IH];
    intros acc; [done|..];
    cbn [NilEmpty.string_of_uint list_ascii_of_string digits Pos.of_uint_acc];
    match goal with
    | |- context [digit_of ?c] =>
        let v := eval vm_compute in (digit_of c) in
        change (digit_of c) with v; cbv iota
    end;
    rewrite <-IH; f_equal; lia.
Qed.

Lemma digits_of_uint d after_digit :
  d ≠ Decimal.Nil ∨ after_digit = true →
  digits 0 after_digit (list_ascii_of_string (NilEmpty.string_of_uint d))
  = Some (Z.of_N (Pos.of_uint d)).
Proof.
  revert after_digit.
  induction d as [|d IH|d IH|d IH|d IH|d IH|d IH|d IH|d IH|d IH|d IH];
    intros after_digit Hd; [by destruct Hd as [?| ->]|..];
    cbn [NilEmpty.string_of_uint list_ascii_of_string digits Pos.of_uint];
    match goal with
    | |- context [digit_of ?c] =>
        let v := eval vm_compute in (digit_of c) in
        change (digit_of c) with v; cbv iota
    end;
    [apply IH; by right|apply digits_of_uint_acc..].
Qed.

Lemma no_space_uint d :
  Forall (λ c, is_space c = false)
    (list_ascii_of_string (NilEmpty.string_of_uint d)).
Proof.
  induction d; simpl; constructor; done.
Qed.

Lemma lstrip_no_space l :
  Forall (λ c, is_space c = false) l → lstrip l = l.
Proof. destruct 1 as [|c l Hc _]; simpl; [done|by rewrite Hc]. Qed.

Lemma strip_no_space l :
  Forall (λ c, is_space c = false) l → strip l = l.
Proof.
  intros Hl. unfold strip. rewrite (lstrip_no_space l Hl).
  rewrite lstrip_no_space; [apply rev_involutive|].
  by apply Forall_rev.
Qed.

Lemma count_digits_uint d :
  count_digits (list_ascii_of_string (NilEmpty.string_of_uint d))
  = String.length (NilEmpty.string_of_uint d).
Proof.
  induction d as [|d IH|d IH|d IH|d IH|d IH|d IH|d IH|d IH|d IH|d IH];
    [done|..];
    cbn [NilEmpty.string_of_uint list_ascii_of_string count_digits
         String.length];
    match goal with
    | |- context [digit_of ?c] =>
        let v := eval vm_compute in (digit_of c) in
        change (digit_of c) with v; cbv iota
    end;
    by rewrite IH.
Qed.

Lemma str_of_int_pos p :
  str_of_int (Z.pos p) = NilEmpty.string_of_uint (Pos.to_uint p)
  ∧ str_of_int (Z.neg p)
    = String "-" (NilEmpty.string_of_uint (Pos.to_uint p)).
Proof.
  pose proof (Unsigned.to_uint_nonnil p) as Hnil.
  unfold str_of_int. simpl. unfold NilZero.string_of_uint.
  by destruct (Pos.to_uint p).
Qed.

(** [int(str(n)) == n], for every integer whose decimal form is within the
    limit on the number of digits, and a [ValueError] beyond. *)
Lemma int_of_str_of_int z :
  int_of_str (str_of_int z)
  = if (int_max_str_digits
        <? Z.of_nat (String.length (str_of_int (Z.abs z))))%Z
    then Raise (ValueError (str_of_int z))
    else Ret z.
Proof.
  destruct z as [|p|p]; [done|..];
    destruct (str_of_int_pos p) as [Hpos Hneg]; unfold int_of_str.
  - change (Z.abs (Z.pos p)) with (Z.pos p). rewrite Hpos.
    rewrite strip_no_space by apply no_space_uint.
    assert (int_literal
              (list_ascii_of_string (NilEmpty.string_of_uint (Pos.to_uint p)))
            = digits 0 false
                (list_ascii_of_string
                   (NilEmpty.string_of_uint (Pos.to_uint p)))) as ->
      by by destruct (Pos.to_uint p).
    rewrite digits_of_uint by (left; apply Unsigned.to_uint_nonnil).
    by rewrite Unsigned.of_to, count_digits_uint.
  - change (Z.abs (Z.neg p)) with (Z.pos p).
    rewrite Hneg, Hpos. cbn [list_ascii_of_string].
    rewrite strip_no_space
      by (constructor; [done|apply no_space_uint]).
    cbn [int_literal].
    rewrite digits_of_uint by (left; apply Unsigned.to_uint_nonnil).
    rewrite Unsigned.of_to. cbn [fmap option_fmap option_map Z.opp N.to_nat Z.of_N].
    change (count_digits ("-"%char :: ?l)) with (count_digits l).
    by rewrite count_digits_uint.
Qed.

Lemma handle_parsed_calls w msg a c :
  lookup_action msg w = (Ret (Some (VStr a)), w) →
  parse_action a = Some c →
  handler_calls (handle_midi_message msg w).2 = handler_calls w ++ [c].
Proof.
  intros Hbound Hparse.
  rewrite (handle_bound _ _ _ Hbound), (parse_action_truthy a c Hparse).
  simpl. rewrite (run_action_parsed a c w Hparse).
  destruct (try_log_contained (call_handler c) (ActionFailed (VStr a)) w)
    as (_ & -> & _).
  apply call_handler_effects.
Qed.

Lemma prefix_load_append x : String.prefix "load:" ("load:" +:+ x) = true.
Proof.
  change ("load:" +:+ x)%string
    with (String "l" (String "o" (String "a" (String "d" (String ":" x))))).
  repeat (rewrite prefix_String; destruct (ascii_dec _ _); [|done]).
  by destruct x.
Qed.

Lemma printed_field a n :
  a = ("load:" +:+ str_of_int n)%string
  ∨ (∃ rest, a = ("load:" +:+ str_of_int n +:+ ":" +:+ rest)%string) →
  String.prefix "load:" a = true
  ∧ split_str ":" a !! 1 = Some (str_of_int n).
Proof.
  intros [->|[rest ->]]; (split; [apply prefix_load_append|]).
  - change (split_str ":" ("load:" +:+ str_of_int n))
      with ("load"%string :: split_str ":" (str_of_int n)).
    by rewrite split_str_of_int.
  - change (split_str ":" ("load:" +:+ str_of_int n +:+ ":" +:+ rest))
      with ("load"%string :: split_str ":" (str_of_int n +:+ ":" +:+ rest)).
    by rewrite split_str_append by apply split_str_of_int.
Qed.

Lemma parse_action_load_field a field index :
  String.prefix "load:" a = true →
  split_str ":" a !! 1 = Some field →
  int_of_str field = Ret index →
  parse_action a = Some (preset_set_and_change index).
Proof.
  intros Hload Hfield Hint. unfold parse_action.
  destruct (prefix_load_not_keyword a Hload) as (_ & Hnext & Hprev).
  simpl in Hnext, Hprev. by rewrite Hnext, Hprev, Hload, Hfield, Hint.
Qed.

(** X4. The action "load:" followed by the decimal form of an integer [n],
    negative ones included, calls [preset_set_and_change] with [n], for
    every [n] whose decimal form is within the limit that [int] sets on the
    number of digits (4300, as the interpreter has it by default); fields
    after a further colon are not read. Beyond the limit [int] refuses the
    field: the failure is logged as an error and no call is made. *)
Theorem load_action_reads_printed_index
    (w : World) (msg : Msg) (a : string) (n : Z)
    (Hbound : lookup_action msg w = (Ret (Some (VStr a)), w))
    (Ha : a = ("load:" +:+ str_of_int n)%string
          ∨ ∃ rest, a = ("load:" +:+ str_of_int n +:+ ":" +:+ rest)%string) :
  (within_digit_limit n →
   handler_calls (handle_midi_message msg w).2
   = handler_calls w ++ [preset_set_and_change n])
  ∧ (¬ within_digit_limit n →
     handle_midi_message msg w
     = (Ret tt,
        with_log (λ l, l ++ [(ERROR, ActionFailed (VStr a)
                                       (ValueError (str_of_int n)))]) w)).
Proof.
  destruct (printed_field a n Ha) as [Hload Hfield].
  pose proof (int_of_str_of_int n) as Hint.
  unfold within_digit_limit.
  destruct (Z.ltb_spec int_max_str_digits
              (Z.of_nat (String.length (str_of_int (Z.abs n)))))
    as [Hover|Hwithin].
  - split; [lia|]. intros _.
    rewrite (handle_bound _ _ _ Hbound).
    destruct (prefix_load_not_keyword a Hload) as (-> & _). simpl.
    by apply run_action_malformed with (str_of_int n).
  - split; [|lia]. intros _.
    apply handle_parsed_calls with a; [done|].
    by apply parse_action_load_field with (str_of_int n).
Qed.

Lemma load_action_reads_printed_index_witness :
  let w := registered
    (Loaded (config_with {[ "1:1"%string := VStr "load:-12:x" ]})) "A" in
  handler_calls (handle_midi_message (control_change 0 1 0) w).2
  = handler_calls w ++ [preset_set_and_change (-12)].
Proof.
  intros w.
  refine (proj1 (load_action_reads_printed_index w (control_change 0 1 0)
                   "load:-12:x" (-12) eq_refl _) _).
  - right. exists "x"%string. reflexivity.
  - by vm_compute.
Defined.

(** ** The listener *)

Lemma receive_loop_calls msgs fin w :
  let r := receive_loop msgs fin w in
  (∃ calls, handler_calls r.2 = handler_calls w ++ calls
            ∧ length calls ≤ length msgs)
  ∧ modapi_calls r.2 = modapi_calls w.
Proof.
  revert w. induction msgs as [|msg later IH]; intros w.
  - simpl. destruct fin; (split; [|done]); exists [];
      (split; [by rewrite app_nil_r|done]).
  - cbn [receive_loop]. unfold mbind, M_bind, gets.
    destruct (running (self w)); simpl.
    + destruct (handle_calls msg w) as ((calls1 & Hcalls1 & Hlen1) & Hmod1).
      destruct (handle_midi_message msg w) as [[[]|e] w1]; simpl in *.
      * destruct (IH w1) as ((calls2 & Hcalls2 & Hlen2) & Hmod2).
        split; [|congruence].
        exists (calls1 ++ calls2). rewrite Hcalls2, Hcalls1, <-app_assoc.
        split; [done|]. rewrite length_app. lia.
      * split; [|done]. exists calls1. split; [done|lia].
    + split; [|done]. exists []. split; [by rewrite app_nil_r|simpl; lia].
Qed.

Lemma try_contained (body : M unit) (on_error : Exn → M unit) w :
  (∀ e w', (on_error e w').1 = Ret tt) →
  contained (try_except body is_Exception on_error w).1.
Proof.
  intros Hon. unfold try_except.
  destruct (body w) as [[[]|e] w']; simpl; [by left|].
  destruct (is_Exception e) eqn:He; simpl.
  - left. apply Hon.
  - destruct (not_Exception e He) as [name ->]. right. by exists name.
Qed.

(** X5. Whatever the device does and whatever the table holds,
    [listen_to_port] never raises an [Exception]; the last thing it does is
    to log that it stops; it leaves the plugin object and the threads as
    they were, never calls the snapshot inventory, and calls the handler at
    most once for each message of the stream (never, when the device could
    not be opened). *)
Theorem listen_to_port_is_contained
    (w : World) (port_name : string) (port : Port) :
  let r := listen_to_port port_name port w in
  contained r.1
  ∧ (∃ w1, r.2 = logged INFO (ListenStop port_name) w1)
  ∧ self r.2 = self w
  ∧ threads r.2 = threads w
  ∧ modapi_calls r.2 = modapi_calls w
  ∧ ∃ calls,
      handler_calls r.2 = handler_calls w ++ calls
      ∧ length calls ≤ match port with
                       | OpenFails _ => 0
                       | Opened msgs _ => length msgs
                       end.
Proof.
  intros r.
  destruct (keeps_listen_to_port port_name port w) as [Hself Hthreads].
  subst r. unfold listen_to_port, try_finally in *.
  match goal with
  | |- context [try_except ?b _ ?h w] =>
      set (body := b) in *; set (on_error := h) in *
  end.
  pose proof (try_contained body on_error w (λ _ _, eq_refl)) as Hres.
  assert (modapi_calls (try_except body is_Exception on_error w).2
          = modapi_calls w
          ∧ ∃ calls,
              handler_calls (try_except body is_Exception on_error w).2
              = handler_calls w ++ calls
              ∧ length calls ≤ match port with
                               | OpenFails _ => 0
                               | Opened msgs _ => length msgs
                               end) as [Hmod Hcalls].
  { assert (modapi_calls (body w).2 = modapi_calls w
            ∧ ∃ calls,
                handler_calls (body w).2 = handler_calls w ++ calls
                ∧ length calls ≤ match port with
                                 | OpenFails _ => 0
                                 | Opened msgs _ => length msgs
                                 end) as Hbody.
    { unfold body. destruct port as [e|msgs fin]; monad.
      - split; [done|]. exists []. by rewrite app_nil_r.
      - destruct (receive_loop_calls msgs fin
                    (logged INFO (ListenActive port_name) w))
          as (Hc & Hm).
        autorewrite with world in Hc, Hm.
        by destruct (receive_loop msgs fin _) as [[[]|e] w1]. }
    unfold try_except.
    destruct (body w) as [[[]|e] w1]; simpl in *; [done|].
    destruct (is_Exception e); [|done].
    unfold on_error; monad. by autorewrite with world. }
  destruct (try_except body is_Exception on_error w) as [res w1].
  monad. simpl in Hself, Hthreads. autorewrite with world in *.
  repeat split; try done. by exists w1.
Qed.

(** X6. A section of the table that is present but is not a mapping (an
    empty YAML section loads as [None]) ends the listener at the first
    message of that class: the lookup raises, [listen_to_port] logs a
    warning and the stop, and no later message of the stream is handled. *)
Theorem bad_section_stops_listener
    (w : World) (port_name : string) (table : gmap string PyVal) (v : PyVal)
    (channel control value : Z) (later : list Msg) (fin : StreamEnd)
    (Htable : snapshot_map (self w) = VDict table)
    (Hsection : table !! "cc" = Some v)
    (Hbad : ∀ d, v ≠ VDict d)
    (Hrunning : running (self w) = true) :
  listen_to_port port_name
    (Opened (control_change channel control value :: later) fin) w
  = (Ret tt,
     logged INFO (ListenStop port_name)
       (logged WARNING
          (PortError port_name (AttributeError (type_name v) "get"))
          (logged INFO (ListenActive port_name) w))).
Proof.
  unfold listen_to_port, try_finally, try_except; do 2 monad.
  autorewrite with world. rewrite Hrunning. simpl.
  unfold handle_midi_message, lookup_action; monad.
  autorewrite with world. rewrite Htable. simpl. rewrite Hsection. simpl.
  destruct v as [|b|z|s|l|d]; try done. by destruct (Hbad d).
Qed.

Lemma bad_section_stops_listener_witness :
  let w := with_self (set_snapshot_map (VDict {[ "cc"%string := VNone ]}))
    (registered (Failed FileNotFoundError) "A") in
  listen_to_port "dev" (Opened [control_change 0 1 0; control_change 0 2 0]
                          Closed) w
  = (Ret tt,
     logged INFO (ListenStop "dev")
       (logged WARNING (PortError "dev" (AttributeError "NoneType" "get"))
          (logged INFO (ListenActive "dev") w))).
Proof.
  intros w.
  apply (bad_section_stops_listener w "dev" {[ "cc"%string := VNone ]} VNone);
    [reflexivity|reflexivity|discriminate|reflexivity].
Defined.

Lemma running_handle msg w :
  running (self (handle_midi_message msg w).2) = running (self w).
Proof. by destruct (keeps_handle_midi_message msg w) as [-> _]. Qed.

(** X7. While the plugin is running, a stream is handled message by
    message in the order of arrival: handling a stream is handling a first
    part of it and then, unless that raised, the rest. *)
Theorem receive_loop_app
    (w : World) (msgs1 msgs2 : list Msg) (fin : StreamEnd)
    (Hrunning : running (self w) = true) :
  receive_loop (msgs1 ++ msgs2) fin w
  = (receive_loop msgs1 Closed;; receive_loop msgs2 fin) w.
Proof.
  revert w Hrunning. induction msgs1 as [|msg later IH]; intros w Hrunning.
  - done.
  - rewrite <-app_comm_cons. unfold mbind, M_bind in *.
    rewrite !receive_loop_cons by done.
    pose proof (running_handle msg w) as Hkeep.
    destruct (handle_midi_message msg w) as [[[]|e] w1]; [|done].
    apply IH. simpl in Hkeep. congruence.
Qed.

Lemma receive_loop_app_witness :
  let w := registered
    (Loaded (config_with {[ "1:1"%string := VStr "next" ]})) "A" in
  receive_loop ([control_change 0 1 0] ++ [control_change 0 1 1]) Closed w
  = (receive_loop [control_change 0 1 0] Closed;;
     receive_loop [control_change 0 1 1] Closed) w.
Proof.
  intros w. apply (receive_loop_app w). reflexivity.
Defined.

(** X8. Once [running] is false a listener handles nothing more: the
    message that arrives only ends the loop, with no call to the handler,
    and what the stream would have delivered after it, an error included,
    is not seen. *)
Theorem stopped_listener_handles_nothing
    (w : World) (port_name : string) (msg : Msg) (later : list Msg)
    (fin : StreamEnd)
    (Hstopped : running (self w) = false) :
  listen_to_port port_name (Opened (msg :: later) fin) w
  = (Ret tt,
     logged INFO (ListenStop port_name)
       (logged INFO (ListenActive port_name) w)).
Proof.
  unfold listen_to_port, try_finally, try_except; do 2 monad.
  autorewrite with world. by rewrite Hstopped.
Qed.

Lemma stopped_listener_handles_nothing_witness :
  let w := with_self (set_running false)
    (registered (Loaded (config_with {[ "1:1"%string := VStr "next" ]})) "A") in
  listen_to_port "dev"
    (Opened [control_change 0 1 0] (ReadError (OtherException "IOError"))) w
  = (Ret tt,
     logged INFO (ListenStop "dev") (logged INFO (ListenActive "dev") w)).
Proof.
  intros w. apply (stopped_listener_handles_nothing w). reflexivity.
Defined.

(** ** Operations on the registry *)

Lemma same_settings_refl w : same_settings w w.
Proof. by repeat split. Qed.

Lemma same_settings_trans w1 w2 w3 :
  same_settings w1 w2 → same_settings w2 w3 → same_settings w1 w3.
Proof.
  intros (? & ? & ? & ? & ?) (? & ? & ? & ? & ?).
  repeat split; congruence.
Qed.

Lemma registry_step_refl w : registry_step w w.
Proof.
  split; [apply same_settings_refl|]. repeat split; auto.
Qed.

Lemma registry_step_trans w1 w2 w3 :
  registry_step w1 w2 → registry_step w2 w3 → registry_step w1 w3.
Proof.
  intros (Hs1 & Hp1 & Hf1 & Hh1 & Hm1 & Hwf1)
         (Hs2 & Hp2 & Hf2 & Hh2 & Hm2 & Hwf2).
  split; [by eapply same_settings_trans|].
  split; [by etrans|].
  split; [|split; [congruence|split; [congruence|auto]]].
  intros p t Ht. apply prefix_length in Hp1.
  destruct (Hf2 p t Ht) as [Ht2|Hlen]; [|right; lia].
  apply Hf1 in Ht2. done.
Qed.

Lemma registry_step_logged lvl msg w : registry_step w (logged lvl msg w).
Proof.
  unfold registry_step, same_settings, registry_wf.
  autorewrite with world. repeat split; auto.
Qed.

Lemma registry_step_spawned port_name w : registry_step w (spawned port_name w).
Proof.
  unfold registry_step.
  rewrite threads_spawned.
  split; [|split; [by apply prefix_app_r|split; [|split; [|split]]]].
  - unfold same_settings, spawned. autorewrite with world. done.
  - intros p t. rewrite active_ports_spawned.
    destruct (decide (p = port_name)) as [->|Hne].
    + rewrite lookup_insert_eq. intros [= <-]. by right.
    + rewrite lookup_insert_ne by done. by left.
  - unfold spawned. by autorewrite with world.
  - unfold spawned. by autorewrite with world.
  - intros Hwf p t. unfold registry_wf in *.
    rewrite active_ports_spawned, threads_spawned.
    destruct (decide (p = port_name)) as [->|Hne].
    + rewrite lookup_insert_eq. intros [= <-].
      by rewrite lookup_app_r, Nat.sub_diag.
    + rewrite lookup_insert_ne by done. intros Ht.
      specialize (Hwf p t Ht).
      destruct (threads w !! t) as [th|] eqn:Hth; [|done].
      by rewrite (lookup_app_l_Some _ _ _ _ Hth).
Qed.

Lemma registry_step_delete port w :
  registry_step w (with_self (map_active_ports (delete port)) w).
Proof.
  unfold registry_step, same_settings, registry_wf. simpl.
  repeat split; auto.
  - intros p t Ht. left. by apply lookup_delete_Some in Ht as [_ ?].
  - intros Hwf p t Ht. apply Hwf. by apply lookup_delete_Some in Ht as [_ ?].
Qed.

Lemma registry_step_start port_name w :
  registry_step w (start_listening_to_port port_name w).2.
Proof.
  rewrite start_listening_to_port_run. simpl.
  destruct (from_option _ _ _);
    auto using registry_step_refl, registry_step_spawned.
Qed.

Lemma registry_step_on_new_port port w :
  registry_step w (on_new_port port w).2.
Proof.
  unfold on_new_port; monad.
  eapply registry_step_trans;
    [apply registry_step_logged|apply registry_step_start].
Qed.

Lemma registry_step_on_removed_port port w :
  registry_step w (on_removed_port port w).2.
Proof.
  unfold on_removed_port; monad.
  eapply registry_step_trans;
    [apply registry_step_logged|apply registry_step_delete].
Qed.

Lemma registry_step_for_each {A} (body : A → M unit) l w :
  (∀ x w', registry_step w' (body x w').2) →
  registry_step w (for_each l body w).2.
Proof.
  intros Hbody. revert w.
  induction l as [|x l IH]; intros w; simpl; [apply registry_step_refl|].
  unfold mbind, M_bind. specialize (Hbody x w).
  destruct (body x w) as [[[]|e] w1]; [|done].
  eapply registry_step_trans; [done|apply IH].
Qed.

Lemma monitor_cycle_step names previous_ports w :
  ∃ w0,
    registry_step w w0
    ∧ monitor_cycle names previous_ports w
      = (for_each (elements (list_to_set names ∖ previous_ports)) on_new_port;;
         for_each (elements (previous_ports ∖ list_to_set names))
           on_removed_port;;
         mret (list_to_set names)) w0.
Proof.
  unfold monitor_cycle. unfold mbind at 1 2. unfold M_bind at 1 2.
  unfold gets. simpl.
  destruct (truthy (verbose (self w))).
  - exists (logged DEBUG (PeriodicScan (list_to_set names)) w).
    split; [apply registry_step_logged|done].
  - exists w. split; [apply registry_step_refl|done].
Qed.

Lemma registry_step_monitor_cycle names previous_ports w :
  registry_step w (monitor_cycle names previous_ports w).2.
Proof.
  destruct (monitor_cycle_step names previous_ports w) as (w0 & Hw0 & ->).
  eapply registry_step_trans; [done|].
  unfold mbind, M_bind, mret, M_ret.
  pose proof (registry_step_for_each on_new_port
    (elements (list_to_set names ∖ previous_ports)) w0
    registry_step_on_new_port) as H1.
  destruct (for_each _ on_new_port w0) as [[[]|e] w1]; [|done].
  pose proof (registry_step_for_each on_removed_port
    (elements (previous_ports ∖ list_to_set names)) w1
    registry_step_on_removed_port) as H2.
  destruct (for_each _ on_removed_port w1) as [[[]|e] w2];
    by eapply registry_step_trans.
Qed.

Lemma monitor_cycle_returns names previous_ports w :
  (monitor_cycle names previous_ports w).1 = Ret (list_to_set names).
Proof.
  destruct (monitor_cycle_run names previous_ports w) as (w0 & _ & _ & ->).
  apply monitor_loops_spec.
Qed.

Lemma registry_step_monitor_loop polls previous_ports w :
  (monitor_loop polls previous_ports w).1 = Ret tt
  ∧ registry_step w (monitor_loop polls previous_ports w).2.
Proof.
  revert previous_ports w.
  induction polls as [|names later IH]; intros previous_ports w; simpl;
    [split; [done|apply registry_step_refl]|].
  unfold mbind, M_bind, gets.
  destruct (running (self w)); [|split; [done|apply registry_step_refl]].
  pose proof (registry_step_monitor_cycle names previous_ports w) as Hcycle.
  pose proof (monitor_cycle_returns names previous_ports w) as Hret.
  destruct (monitor_cycle names previous_ports w) as [res w1].
  simpl in *. subst res.
  destruct (IH (list_to_set names) w1) as [Hret' Hstep].
  split; [done|]. by eapply registry_step_trans.
Qed.

(** X9. The monitor, whatever the devices do and for as many turns as it
    runs, only manages listeners: it returns without an exception, keeps the
    plugin's settings, makes no call to the handler or to the snapshot
    inventory, never removes a thread, gives a device a new entry only for a
    thread it has just started, and keeps every entry of the registry
    naming a listener thread of its own device. *)
Theorem monitor_only_manages_listeners
    (w : World) (names : list string) (polls : list (list string)) :
  let r := monitor_midi_devices names polls w in
  r.1 = Ret tt ∧ registry_step w r.2.
Proof.
  unfold monitor_midi_devices; monad.
  destruct (registry_step_monitor_loop polls (list_to_set names)
              (logged INFO MonitorStarted w)) as [Hret Hstep].
  split; [done|].
  eapply registry_step_trans; [apply registry_step_logged|done].
Qed.

Lemma start_spec port w :
  let r := start_listening_to_port port w in
  r.1 = Ret tt
  ∧ live_entry r.2 port
  ∧ (∀ p, p ≠ port →
       active_ports (self r.2) !! p = active_ports (self w) !! p).
Proof.
  pose proof (live_entry_start port w) as Hlive.
  rewrite start_listening_to_port_run in *. simpl in *.
  split; [done|]. split; [done|].
  intros p Hne. destruct (from_option _ _ _); [done|].
  rewrite active_ports_spawned. by apply lookup_insert_ne.
Qed.

(** ** The monitor over its turns *)

Lemma monitor_cycle_exact names previous_ports w :
  registry_exact w previous_ports →
  registry_exact (monitor_cycle names previous_ports w).2 (list_to_set names).
Proof.
  intros Hexact.
  destruct (monitor_cycle_run names previous_ports w)
    as (w0 & Hself & Hthreads & ->).
  destruct (monitor_loops_spec (list_to_set names) previous_ports w0)
    as (_ & Hnew & Hgone & Hsame & Hprefix).
  rewrite Hself in Hsame. rewrite Hthreads in Hprefix.
  intros p. split.
  - intros Hcur. destruct (decide (p ∈ previous_ports)) as [Hprev|Hprev].
    + apply (live_entry_prefix w); [done|by apply Hsame|].
      by apply Hexact.
    + by apply Hnew.
  - intros Hcur. destruct (decide (p ∈ previous_ports)) as [Hprev|Hprev].
    + by apply Hgone.
    + rewrite Hsame by tauto. by apply Hexact.
Qed.

Lemma running_step w w' :
  registry_step w w' → running (self w') = running (self w).
Proof. by intros ((_ & _ & _ & _ & ?) & _). Qed.

Lemma from_option_last_cons {A B} (f : A → B) d d' x l :
  from_option f d (last (x :: l)) = from_option f d' (last (x :: l)).
Proof.
  revert x. induction l as [|y l IH]; intros x; [done|]. apply (IH y).
Qed.

Lemma monitor_loop_exact polls previous_ports w :
  running (self w) = true →
  registry_exact w previous_ports →
  registry_exact (monitor_loop polls previous_ports w).2
    (from_option list_to_set previous_ports (last polls)).
Proof.
  revert previous_ports w.
  induction polls as [|names later IH]; intros previous_ports w Hrunning Hexact;
    [done|].
  cbn [monitor_loop]. unfold mbind, M_bind, gets. rewrite Hrunning.
  pose proof (monitor_cycle_exact names previous_ports w Hexact) as Hexact1.
  pose proof (running_step _ _
                (registry_step_monitor_cycle names previous_ports w))
    as Hrunning1.
  pose proof (monitor_cycle_returns names previous_ports w) as Hret.
  destruct (monitor_cycle names previous_ports w) as [res w1].
  simpl in *. subst res.
  specialize (IH (list_to_set names) w1).
  rewrite Hrunning1 in IH. specialize (IH Hrunning Hexact1).
  destruct later as [|names' later]; [exact IH|].
  change (last (names :: names' :: later)) with (last (names' :: later)).
  by rewrite (from_option_last_cons _ previous_ports (list_to_set names)).
Qed.

(** X11. Started on a registry that holds a live entry for exactly the
    devices of its first enumeration, and as long as no listener exits, the
    running monitor keeps the registry exact: after any number of turns the
    registry holds a live entry for exactly the devices of the last
    enumeration. *)
Theorem monitor_keeps_registry_exact
    (w : World) (names : list string) (polls : list (list string))
    (Hrunning : running (self w) = true)
    (Hexact : registry_exact w (list_to_set names)) :
  registry_exact (monitor_midi_devices names polls w).2
    (list_to_set (default names (last polls))).
Proof.
  unfold monitor_midi_devices; monad.
  assert (registry_exact (logged INFO MonitorStarted w) (list_to_set names))
    as Hexact0.
  { intros p. destruct (Hexact p) as [Hin Hout].
    autorewrite with world. split; [|done].
    intros Hp. apply (live_entry_prefix w); autorewrite with world; auto. }
  pose proof (monitor_loop_exact polls (list_to_set names)
                (logged INFO MonitorStarted w)) as Hloop.
  autorewrite with world in Hloop. specialize (Hloop Hrunning Hexact0).
  destruct (last polls); exact Hloop.
Qed.

Lemma monitor_keeps_registry_exact_witness :
  let w := (listen_to_all_midi_ports ["a"; "b"]%string
              (registered (Failed FileNotFoundError) "A")).2 in
  registry_exact
    (monitor_midi_devices ["a"; "b"]%string
       [["b"]; ["b"; "c"]; ["c"; "a"]]%string w).2
    (list_to_set ["c"; "a"]%string).
Proof.
  intros w.
  refine (monitor_keeps_registry_exact w ["a"; "b"]%string
            [["b"]; ["b"; "c"]; ["c"; "a"]]%string _ _); [reflexivity|].
  intros p. rewrite elem_of_list_to_set. split.
  - intros [->|[->|Hp]%elem_of_cons]%elem_of_cons.
    + exists 2. split; reflexivity.
    + exists 3. split; reflexivity.
    + by apply elem_of_nil in Hp.
  - intros [Ha [Hb _]%not_elem_of_cons]%not_elem_of_cons.
    change (active_ports (self w))
      with (<[ "a"%string := 2 ]> (<[ "b"%string := 3 ]> (∅ : gmap string nat))).
    by rewrite !lookup_insert_ne, lookup_empty.
Defined.

(** X12. A turn of the monitor that sees the devices it saw before changes
    nothing: it returns the same set and leaves the world as it was, but
    for the record of the scan when the plugin is verbose and the logger
    lets debug records through. *)
Theorem idle_turn_changes_nothing
    (w : World) (names : list string) (previous_ports : gset string)
    (Hsame : list_to_set names = previous_ports) :
  monitor_cycle names previous_ports w
  = (Ret previous_ports,
     if truthy (verbose (self w))
     then logged DEBUG (PeriodicScan previous_ports) w
     else w).
Proof.
  unfold monitor_cycle. rewrite Hsame, difference_diag_L, elements_empty.
  monad. by destruct (truthy _).
Qed.

Lemma idle_turn_changes_nothing_witness :
  let w := (listen_to_all_midi_ports ["a"; "b"]%string
              (registered (Failed FileNotFoundError) "A")).2 in
  monitor_cycle ["b"; "a"; "b"]%string {[ "a"; "b" ]}%string w
  = (Ret {[ "a"; "b" ]}%string,
     if truthy (verbose (self w))
     then logged DEBUG (PeriodicScan {[ "a"; "b" ]}%string) w
     else w).
Proof.
  intros w.
  refine (idle_turn_changes_nothing w ["b"; "a"; "b"]%string
            {[ "a"; "b" ]}%string _).
  by vm_compute.
Defined.

Lemma monitor_cycle_new names previous_ports w p :
  p ∈ names → p ∉ previous_ports →
  live_entry (monitor_cycle names previous_ports w).2 p.
Proof.
  intros Hcur Hprev.
  destruct (monitor_cycle_run names previous_ports w) as (w0 & _ & _ & ->).
  apply monitor_loops_spec; [|done]. by apply elem_of_list_to_set.
Qed.

Lemma monitor_cycle_gone names previous_ports w p :
  p ∈ previous_ports → p ∉ names →
  active_ports (self (monitor_cycle names previous_ports w).2) !! p = None.
Proof.
  intros Hprev Hcur.
  destruct (monitor_cycle_run names previous_ports w) as (w0 & _ & _ & ->).
  apply monitor_loops_spec; [done|]. by rewrite elem_of_list_to_set.
Qed.

Lemma target_prefix w w' thread tg :
  threads w `prefix_of` threads w' →
  target <$> threads w !! thread = Some tg →
  target <$> threads w' !! thread = Some tg.
Proof.
  intros Hprefix Htarget.
  destruct (threads w !! thread) as [th|] eqn:Hth; [|done].
  by rewrite (prefix_lookup_Some _ _ _ _ Hth Hprefix).
Qed.

(** X13. A device that disappears and comes back while its listener is
    still alive gets a second listener. The turn that sees it gone drops
    its entry without stopping the thread; the turn that sees it again
    starts a new thread for it: both threads are then alive and listen to
    the same device, and the registry names the new one. *)
Theorem reconnect_starts_second_listener
    (w : World) (port_name : string) (thread : nat)
    (names1 names2 : list string) (previous_ports : gset string)
    (Hwf : registry_wf w)
    (Hentry : active_ports (self w) !! port_name = Some thread)
    (Halive : is_alive w thread = true)
    (Hknown : port_name ∈ previous_ports)
    (Hgone : port_name ∉ names1)
    (Hback : port_name ∈ names2) :
  let w1 := (monitor_cycle names1 previous_ports w).2 in
  let w2 := (monitor_cycle names2 (list_to_set names1) w1).2 in
  active_ports (self w1) !! port_name = None
  ∧ is_alive w1 thread = true
  ∧ ∃ thread',
      active_ports (self w2) !! port_name = Some thread'
      ∧ thread' ≠ thread
      ∧ is_alive w2 thread' = true
      ∧ is_alive w2 thread = true
      ∧ target <$> threads w2 !! thread'
        = Some (listen_to_port_target port_name)
      ∧ target <$> threads w2 !! thread
        = Some (listen_to_port_target port_name).
Proof.
  intros w1 w2.
  pose proof (registry_step_monitor_cycle names1 previous_ports w)
    as (_ & Hprefix1 & _ & _ & _ & Hwf1).
  pose proof (registry_step_monitor_cycle names2 (list_to_set names1) w1)
    as (_ & Hprefix2 & Hfresh2 & _ & _ & Hwf2).
  fold w1 in Hprefix1, Hwf1. fold w2 in Hprefix2, Hfresh2, Hwf2.
  pose proof (is_alive_lt w thread Halive) as Hlt.
  assert (active_ports (self w1) !! port_name = None) as Hnone
    by by apply monitor_cycle_gone.
  assert (is_alive w1 thread = true) as Halive1
    by by rewrite (is_alive_prefix w w1).
  split; [done|]. split; [done|].
  destruct (monitor_cycle_new names2 (list_to_set names1) w1 port_name)
    as (thread' & Hentry' & Halive'); [done|by rewrite elem_of_list_to_set|].
  fold w2 in Hentry', Halive'.
  exists thread'. split; [done|].
  assert (length (threads w1) ≤ thread') as Hnew.
  { destruct (Hfresh2 port_name thread' Hentry') as [Hold|?]; [|done].
    congruence. }
  apply prefix_length in Hprefix1 as Hlen1.
  split; [lia|]. split; [done|].
  split; [rewrite (is_alive_prefix w1 w2); [done..|lia]|].
  split; [by apply Hwf2; [apply Hwf1|]|].
  apply (target_prefix w1); [done|].
  apply (target_prefix w); [done|]. by apply Hwf.
Qed.

Lemma reconnect_starts_second_listener_witness :
  let w := (listen_to_all_midi_ports ["dev"%string]
              (registered (Failed FileNotFoundError) "A")).2 in
  let w1 := (monitor_cycle [] {[ "dev"%string ]} w).2 in
  let w2 := (monitor_cycle ["dev"%string] (list_to_set []) w1).2 in
  active_ports (self w1) !! "dev"%string = None
  ∧ is_alive w1 2 = true
  ∧ ∃ thread',
      active_ports (self w2) !! "dev"%string = Some thread'
      ∧ thread' ≠ 2
      ∧ is_alive w2 thread' = true
      ∧ is_alive w2 2 = true
      ∧ target <$> threads w2 !! thread' = Some (listen_to_port_target "dev")
      ∧ target <$> threads w2 !! 2 = Some (listen_to_port_target "dev").
Proof.
  intros w.
  refine (reconnect_starts_second_listener w "dev" 2 [] ["dev"%string]
            {[ "dev"%string ]} _ eq_refl eq_refl _ _ _).
  - intros p t.
    change (active_ports (self w))
      with (<[ "dev"%string := 2 ]> (∅ : gmap string nat)).
    intros [[<- <-]|[_ Hp]]%lookup_insert_Some; [reflexivity|].
    by rewrite lookup_empty in Hp.
  - by apply elem_of_singleton.
  - apply not_elem_of_nil.
  - by apply list_elem_of_singleton.
Defined.

(** ** Construction *)

(** X14. Construction starts everything or nothing. For every handler and
    every outcome of reading the configuration, [register_plugin] either
    returns with the plugin running, the given handler installed, an empty
    registry and its two threads alive, or raises with the plugin not
    running and no thread started. *)
Theorem construction_starts_all_or_nothing :
  ∀ (h : Handler) (file : ConfigFile) (m : ModApi) (lvl : Level),
    let r := register_plugin h file (boot m lvl) in
    active_ports (self r.2) = ∅
    ∧ handler_calls r.2 = []
    ∧ ((r.1 = Ret tt
        ∧ running (self r.2) = true
        ∧ handler (self r.2) = h
        ∧ threads r.2
          = [ {| target := listen_to_all_midi_ports_target; alive := true |};
              {| target := monitor_midi_devices_target; alive := true |} ])
       ∨ (∃ e, r.1 = Raise e
               ∧ running (self r.2) = false
               ∧ threads r.2 = [])).
Proof.
  intros h file m lvl r. subst r.
  unfold register_plugin, init, load_config, try_except, start, Thread_start.
  destruct file as [v|e].
  - destruct v as [|b|z|s|l|d]; monad.
    6: destruct (d !! "midi") as [[|b|z|s|l|d']|]; monad.
    all: autorewrite with world.
    all: split; [done|]; split; [done|].
    all: first [left; by repeat split | right; eexists; by repeat split].
  - destruct e; try (by repeat split; right; eexists).
    destruct lvl; vm_compute; by repeat split; left.
Qed.

(** X15. Only a missing file is forgiven. Any other failure to read the
    configuration leaves [register_plugin] as it was raised, and a
    configuration that is not a mapping (an empty YAML file loads as [None])
    or whose "midi" section is not a mapping makes construction fail with
    an [AttributeError]; in each case before anything is logged or
    started. *)
Theorem construction_failures :
  ∀ (h : Handler) (m : ModApi) (lvl : Level),
    let w0 := with_self (set_handler h) (boot m lvl) in
    (∀ e, e ≠ FileNotFoundError →
       register_plugin h (Failed e) (boot m lvl) = (Raise e, w0))
    ∧ (∀ v, (∀ d, v ≠ VDict d) →
         register_plugin h (Loaded v) (boot m lvl)
         = (Raise (AttributeError (type_name v) "get"),
            with_self (set_config v) w0))
    ∧ (∀ d v, d !! "midi" = Some v → (∀ d', v ≠ VDict d') →
         register_plugin h (Loaded (VDict d)) (boot m lvl)
         = (Raise (AttributeError (type_name v) "get"),
            with_self (set_config (VDict d)) w0)).
Proof.
  intros h m lvl w0. subst w0.
  unfold register_plugin, init, load_config, try_except.
  split; [|split].
  - intros e He. by destruct e.
  - intros v Hv. destruct v as [|b|z|s|l|d]; try done. by destruct (Hv d).
  - intros d v Hmidi Hv. monad. rewrite Hmidi.
    destruct v as [|b|z|s|l|d']; try done. by destruct (Hv d').
Qed.

Lemma construction_failures_witness :
  register_plugin quiet_handler (Failed (OtherException "PermissionError"))
    (boot (modapi_at "A") INFO)
  = (Raise (OtherException "PermissionError"),
     with_self (set_handler quiet_handler) (boot (modapi_at "A") INFO))
  ∧ register_plugin quiet_handler (Loaded VNone) (boot (modapi_at "A") INFO)
    = (Raise (AttributeError "NoneType" "get"),
       with_self (set_config VNone)
         (with_self (set_handler quiet_handler) (boot (modapi_at "A") INFO)))
  ∧ register_plugin quiet_handler
      (Loaded (VDict {[ "midi"%string := VStr "x" ]}))
      (boot (modapi_at "A") INFO)
    = (Raise (AttributeError "str" "get"),
       with_self (set_config (VDict {[ "midi"%string := VStr "x" ]}))
         (with_self (set_handler quiet_handler) (boot (modapi_at "A") INFO))).
Proof.
  destruct (construction_failures quiet_handler (modapi_at "A") INFO)
    as (Hload & Hconfig & Hmidi).
  split; [by apply Hload|]. split; [by apply Hconfig|].
  apply (Hmidi _ (VStr "x")); [reflexivity|discriminate].
Defined.

(** ** The registry stays well formed *)

Lemma target_alter_alive (l : list Thread) thread thread' :
  target <$> alter (λ th, {| target := target th; alive := false |}) thread l
             !! thread'
  = target <$> l !! thread'.
Proof.
  rewrite list_lookup_alter. case_decide; [subst|done].
  by destruct (l !! thread').
Qed.

Lemma registry_wf_listener_thread thread port w :
  registry_wf w → registry_wf (listener_thread thread port w).2.
Proof.
  intros Hwf. unfold listener_thread.
  destruct (target <$> threads w !! thread) as [[| |port_name]|] eqn:Htarget;
    try done.
  destruct (listener_thread_run thread port port_name w Htarget)
    as (w1 & [Hself Hthreads] & Hrun).
  unfold listener_thread in Hrun. rewrite Htarget in Hrun. rewrite Hrun.
  intros p t. simpl. rewrite target_alter_alive, Hself, Hthreads. apply Hwf.
Qed.

(** X16. Every entry of the registry names a thread that was started to
    listen to the device of the entry, and every operation keeps it so:
    starting a listener, the exit of a listener thread, the initial scan and
    the monitor. (The registry of a plugin that was just constructed is
    empty.) *)
Theorem registry_stays_well_formed (w : World) (Hwf : registry_wf w) :
  (∀ port_name, registry_wf (start_listening_to_port port_name w).2)
  ∧ (∀ thread port, registry_wf (listener_thread thread port w).2)
  ∧ (∀ names, registry_wf (listen_to_all_midi_ports names w).2)
  ∧ (∀ names polls, registry_wf (monitor_midi_devices names polls w).2).
Proof.
  split; [|split; [|split]].
  - intros port_name. by apply registry_step_start.
  - intros thread port. by apply registry_wf_listener_thread.
  - intros names.
    assert (∃ w1, listen_to_all_midi_ports names w
                  = for_each (elements (list_to_set names : gset string))
                      start_listening_to_port w1
                  ∧ registry_step w w1) as (w1 & -> & Hw1).
    { unfold listen_to_all_midi_ports; monad.
      destruct (_ || _); monad; eexists;
        (split; [done|]);
        [apply registry_step_logged|apply registry_step_refl]. }
    apply (registry_step_for_each start_listening_to_port _ w1
             registry_step_start).
    by apply Hw1.
  - intros names polls. unfold monitor_midi_devices; monad.
    apply (registry_step_monitor_loop polls (list_to_set names)).
    by apply registry_step_logged.
Qed.

Lemma registry_stays_well_formed_witness :
  let w := (listen_to_all_midi_ports ["dev"%string]
              (registered (Failed FileNotFoundError) "A")).2 in
  registry_wf
    (listener_thread 2 (OpenFails (OtherException "IOError")) w).2
  ∧ registry_wf (monitor_midi_devices ["dev"%string] [["x"%string]] w).2.
Proof.
  intros w.
  assert (registry_wf w) as Hwf.
  { intros p t.
    change (active_ports (self w))
      with (<[ "dev"%string := 2 ]> (∅ : gmap string nat)).
    intros [[<- <-]|[_ Hp]]%lookup_insert_Some; [reflexivity|].
    by rewrite lookup_empty in Hp. }
  destruct (registry_stays_well_formed w Hwf) as (_ & Hexit & _ & Hmonitor).
  split; [apply Hexit|apply Hmonitor].
Defined.

(** ** Moving through the inventory *)

Lemma index_of_NoDup x names j :
  NoDup names → names !! j = Some x → index_of x names = Some j.
Proof.
  intros Hnodup Hj.
  destruct (index_of x names) as [i|] eqn:Hi.
  - apply index_of_Some in Hi as [Hi _].
    by rewrite (NoDup_lookup names i j x Hnodup Hi Hj).
  - apply index_of_None in Hi. destruct Hi.
    by apply list_elem_of_lookup_2 in Hj.
Qed.

Lemma prev_of_next idx n :
  idx < n → ((idx + 1) mod n + n - 1) mod n = idx.
Proof.
  intros Hlt. destruct (decide (idx + 1 = n)) as [Heq|Hne].
  - rewrite Heq, Nat.Div0.mod_same. simpl.
    rewrite Nat.mod_small by lia. lia.
  - rewrite (Nat.mod_small (idx + 1)) by lia.
    replace (idx + 1 + n - 1) with (idx + 1 * n) by lia.
    rewrite Nat.Div0.mod_add. by apply Nat.mod_small.
Qed.

Lemma next_of_prev idx n :
  idx < n → ((idx + n - 1) mod n + 1) mod n = idx.
Proof.
  intros Hlt. destruct idx as [|idx].
  - simpl. rewrite (Nat.mod_small (n - 1)) by lia.
    replace (n - 1 + 1) with n by lia. apply Nat.Div0.mod_same.
  - replace (S idx + n - 1) with (idx + 1 * n) by lia.
    rewrite Nat.Div0.mod_add, (Nat.mod_small idx) by lia.
    rewrite Nat.mod_small; lia.
Qed.

(** X17. In an inventory whose names are all different, previous undoes
    next and next undoes previous. If the current name of [w'] is the one
    that [load_next_snapshot] selects from [w], then
    [load_previous_snapshot] on [w'] loads the index of the current
    snapshot of [w]; and the same with the two methods exchanged. *)
Theorem previous_undoes_next
    (w w' : World) (idx : nat) (key : PyVal) (index : Z)
    (Hnodup : NoDup (get_snapshot_list (modapi w)).*2)
    (Hinv : get_snapshot_list (modapi w') = get_snapshot_list (modapi w))
    (Hcur : get_snapshot_list (modapi w) !! idx
            = Some (key, get_current_snapshot_name (modapi w)))
    (Hint : py_int key = Ret index) :
  let inv := get_snapshot_list (modapi w) in
  (inv.*2 !! ((idx + 1) mod length inv)
   = Some (get_current_snapshot_name (modapi w')) →
   modapi_calls (load_previous_snapshot w').2 = modapi_calls w' ++ [index])
  ∧ (inv.*2 !! ((idx + length inv - 1) mod length inv)
     = Some (get_current_snapshot_name (modapi w')) →
     modapi_calls (load_next_snapshot w').2 = modapi_calls w' ++ [index]).
Proof.
  intros inv.
  assert (idx < length inv) as Hlt by by apply lookup_lt_Some in Hcur.
  split; intros Hsel.
  - rewrite (load_previous_snapshot_at w' ((idx + 1) mod length inv)
               key (get_current_snapshot_name (modapi w)) index).
    + apply modapi_calls_load.
    + rewrite Hinv. by apply index_of_NoDup.
    + rewrite Hinv. fold inv. by rewrite prev_of_next.
    + done.
  - rewrite (load_next_snapshot_at w' ((idx + length inv - 1) mod length inv)
               key (get_current_snapshot_name (modapi w)) index).
    + apply modapi_calls_load.
    + rewrite Hinv. by apply index_of_NoDup.
    + rewrite Hinv. fold inv. by rewrite next_of_prev.
    + done.
Qed.

Lemma previous_undoes_next_witness :
  modapi_calls
    (load_previous_snapshot (registered (Failed FileNotFoundError) "A")).2
  = [2%Z]
  ∧ modapi_calls
      (load_next_snapshot (registered (Failed FileNotFoundError) "B")).2
    = [2%Z].
Proof.
  split.
  - refine (proj1 (previous_undoes_next
      (registered (Failed FileNotFoundError) "C")
      (registered (Failed FileNotFoundError) "A") 2 (VInt 2) 2
      _ eq_refl eq_refl eq_refl) eq_refl).
    apply (bool_decide_unpack _). by vm_compute.
  - refine (proj2 (previous_undoes_next
      (registered (Failed FileNotFoundError) "C")
      (registered (Failed FileNotFoundError) "B") 2 (VInt 2) 2
      _ eq_refl eq_refl eq_refl) eq_refl).
    apply (bool_decide_unpack _). by vm_compute.
Defined.

(** X18. Unlike the dispatch of a message, [load_next_snapshot] contains no
    failure. An inventory key that [int] rejects makes it raise after the
    selection was logged and before anything is loaded; a failure of the
    inventory's [load_snapshot] leaves the method as it was raised, after
    the call was made. *)
Theorem snapshot_failures_propagate
    (w : World) (idx : nat) (key : PyVal) (name : string)
    (Hidx : index_of (get_current_snapshot_name (modapi w))
              (get_snapshot_list (modapi w)).*2 = Some idx)
    (Hsel : get_snapshot_list (modapi w)
              !! ((idx + 1) mod length (get_snapshot_list (modapi w)))
            = Some (key, name)) :
  (∀ e, py_int key = Raise e →
     load_next_snapshot w = (Raise e, logged INFO (NextSnapshot key name) w))
  ∧ (∀ index e,
       py_int key = Ret index →
       load_snapshot_raises (modapi w) index = Some e →
       (load_next_snapshot w).1 = Raise e
       ∧ modapi_calls (load_next_snapshot w).2 = modapi_calls w ++ [index]).
Proof.
  destruct (item_fst _ _ _ _ Hsel) as [Hkey Hname].
  split.
  - intros e Hint. unfold load_next_snapshot; monad. rewrite Hidx.
    rewrite length_fmap, next_idx_nat, Hkey, Hname. simpl.
    by rewrite Hint.
  - intros index e Hint Hraises.
    rewrite (load_next_snapshot_at w idx key name index Hidx Hsel Hint).
    split; [|apply modapi_calls_load].
    unfold load_snapshot, modapi_load_snapshot; monad.
    autorewrite with world. by rewrite Hraises.
Qed.

Lemma snapshot_failures_propagate_witness :
  let m := {| get_current_snapshot_name := "A";
              get_snapshot_list := [(VStr "one", "A"); (VInt 7, "B")]%string;
              load_snapshot_raises := λ _, Some (OtherException "HTTPError") |} in
  let w := boot m INFO in
  let w' := boot {| get_current_snapshot_name := "B";
                    get_snapshot_list := get_snapshot_list m;
                    load_snapshot_raises := load_snapshot_raises m |} INFO in
  (load_next_snapshot w).1 = Raise (OtherException "HTTPError")
  ∧ load_next_snapshot w'
    = (Raise (ValueError "one"),
       logged INFO (NextSnapshot (VStr "one") "A") w').
Proof.
  intros m w w'. split.
  - refine (proj1 (proj2 (snapshot_failures_propagate w 0 (VInt 7) "B"
      eq_refl eq_refl) 7%Z (OtherException "HTTPError") eq_refl eq_refl)).
  - refine (proj1 (snapshot_failures_propagate w' 1 (VStr "one") "A"
      eq_refl eq_refl) (ValueError "one") eq_refl).
Defined.

(** * The scan and the monitor among the listeners *)

Lemma exits_only_refl E w : exits_only E w w.
Proof. by repeat split. Qed.

Lemma exits_only_trans E w1 w2 w3 :
  exits_only E w1 w2 → exits_only E w2 w3 → exits_only E w1 w3.
Proof.
  intros (Hs1 & Hl1 & Ha1) (Hs2 & Hl2 & Ha2).
  split; [congruence|]. split; [congruence|].
  intros t Ht. by rewrite Ha2, Ha1.
Qed.

Lemma exits_only_mono E E' w w' :
  (∀ t, t ∈ E → t ∈ E') → exits_only E w w' → exits_only E' w w'.
Proof.
  intros Hincl (Hs & Hl & Ha). split; [done|]. split; [done|].
  intros t Ht. apply Ha. intros Hin. by apply Ht, Hincl.
Qed.

Lemma listener_exit_spec ev w :
  (listener_exit ev w).1 = Ret tt
  ∧ exits_only [ev.1] w (listener_exit ev w).2.
Proof.
  destruct ev as [thread port]. unfold listener_exit. simpl.
  destruct (is_alive w thread); simpl; [|split; [done|apply exits_only_refl]].
  split; [done|].
  destruct (target <$> threads w !! thread) as [tg|] eqn:Htarget.
  2: { unfold listener_thread. rewrite Htarget. apply exits_only_refl. }
  destruct tg as [| |port_name].
  1, 2: unfold listener_thread; rewrite Htarget; apply exits_only_refl.
  destruct (listener_thread_run thread port port_name w Htarget)
    as (w1 & [Hself Hthreads] & ->).
  split; [done|]. simpl. split; [by rewrite length_alter, Hthreads|].
  intros t Ht. unfold is_alive. simpl.
  rewrite list_lookup_alter_ne, Hthreads; [done|].
  intros ->. apply Ht. by apply list_elem_of_singleton.
Qed.

Lemma listener_exits_spec evs w :
  (listener_exits evs w).1 = Ret tt
  ∧ exits_only evs.*1 w (listener_exits evs w).2.
Proof.
  revert w. induction evs as [|ev evs IH]; intros w.
  - split; [done|apply exits_only_refl].
  - unfold listener_exits in *. cbn [for_each]. unfold mbind, M_bind.
    destruct (listener_exit_spec ev w) as [Hret Hstep].
    destruct (listener_exit ev w) as [res w1]. simpl in *. subst res.
    destruct (IH w1) as [Hret' Hstep']. split; [done|].
    apply exits_only_trans with w1.
    + eapply exits_only_mono; [|done].
      intros t Ht. apply elem_of_cons. left.
      by apply list_elem_of_singleton in Ht.
    + eapply exits_only_mono; [|done].
      intros t Ht. by apply elem_of_cons; right.
Qed.

Lemma hd_exits_incl (exits : list (list (nat * Port))) t :
  t ∈ (hd [] exits).*1 → t ∈ (concat exits).*1.
Proof.
  destruct exits as [|e exits]; [done|]. simpl.
  rewrite fmap_app, elem_of_app. by left.
Qed.

Lemma tl_exits_incl (exits : list (list (nat * Port))) t :
  t ∈ (concat (tl exits)).*1 → t ∈ (concat exits).*1.
Proof.
  destruct exits as [|e exits]; [done|]. simpl.
  rewrite fmap_app, elem_of_app. by right.
Qed.

(** A loop of starts among exits: every device of the loop gets an entry,
    for a thread that is alive at the end unless it is one that exited. *)
Lemma for_each_among_starts (body : string → M unit) l exits E w :
  (∀ port w',
     (body port w').1 = Ret tt
     ∧ live_entry (body port w').2 port
     ∧ (∀ p, p ≠ port →
          active_ports (self (body port w').2) !! p
          = active_ports (self w') !! p)
     ∧ threads w' `prefix_of` threads (body port w').2) →
  (∀ t, t ∈ (concat exits).*1 → t ∈ E) →
  let r := for_each_among l body exits w in
  r.1 = Ret tt
  ∧ (∀ p, p ∈ l → entry_unless_exited E r.2 p)
  ∧ (∀ p, p ∉ l →
       active_ports (self r.2) !! p = active_ports (self w) !! p)
  ∧ length (threads w) ≤ length (threads r.2)
  ∧ (∀ t, t < length (threads w) → t ∉ E →
       is_alive r.2 t = is_alive w t).
Proof.
  intros Hbody. revert exits w.
  induction l as [|port l IH]; intros exits w HE; simpl.
  - repeat split; try done. intros p Hp. by apply elem_of_nil in Hp.
  - destruct (Hbody port w) as (Hret & (t0 & Hentry & Halive) & Hother & Hprefix).
    unfold mbind, M_bind.
    destruct (body port w) as [res w1]. simpl in *. subst res.
    destruct (listener_exits_spec (hd [] exits) w1) as [Hret1 Hexits].
    apply (exits_only_mono _ E) in Hexits;
      [|intros t Ht; by apply HE, hd_exits_incl].
    destruct Hexits as (Hself2 & Hlen2 & Halive2).
    destruct (listener_exits (hd [] exits) w1) as [res w2].
    simpl in *. subst res.
    destruct (IH (tl exits) w2) as (Hret' & Hin' & Hother' & Hlen' & Halive').
    { intros t Ht. by apply HE, tl_exits_incl. }
    apply prefix_length in Hprefix as Hlen1.
    pose proof (is_alive_lt w1 t0 Halive) as Hlt0.
    split; [done|]. split; [|split; [|split]].
    + intros p Hp. destruct (decide (p ∈ l)) as [Hl|Hl]; [by apply Hin'|].
      apply elem_of_cons in Hp as [->|Hp]; [|done].
      exists t0. rewrite Hother', Hself2 by done.
      split; [done|]. split; [lia|].
      intros Ht0. rewrite Halive', Halive2 by (done || lia). done.
    + intros p [Hne Hp]%not_elem_of_cons.
      rewrite Hother', Hself2 by done. by apply Hother.
    + lia.
    + intros t Ht HtE.
      rewrite Halive', Halive2 by (done || lia).
      by apply (is_alive_prefix w w1).
Qed.

Lemma for_each_among_removed l exits (E : list nat) w :
  (∀ t, t ∈ (concat exits).*1 → t ∈ E) →
  let r := for_each_among l on_removed_port exits w in
  r.1 = Ret tt
  ∧ (∀ p, p ∈ l → active_ports (self r.2) !! p = None)
  ∧ (∀ p, p ∉ l →
       active_ports (self r.2) !! p = active_ports (self w) !! p)
  ∧ length (threads r.2) = length (threads w)
  ∧ (∀ t, t ∉ E → is_alive r.2 t = is_alive w t).
Proof.
  revert exits w. induction l as [|port l IH]; intros exits w HE; simpl.
  - repeat split; try done. intros p Hp. by apply elem_of_nil in Hp.
  - unfold on_removed_port at 1; monad.
    set (w1 := with_self _ _).
    assert (active_ports (self w1) = delete port (active_ports (self w)))
      as Hports by (unfold w1; simpl; by autorewrite with world).
    assert (threads w1 = threads w) as Hthreads
      by (unfold w1; simpl; by autorewrite with world).
    clearbody w1.
    destruct (listener_exits_spec (hd [] exits) w1) as [Hret1 Hexits].
    apply (exits_only_mono _ E) in Hexits;
      [|intros t Ht; by apply HE, hd_exits_incl].
    destruct Hexits as (Hself2 & Hlen2 & Halive2).
    destruct (listener_exits (hd [] exits) w1) as [res w2].
    simpl in Hret1, Hself2, Hlen2, Halive2 |- *. subst res.
    destruct (IH (tl exits) w2) as (Hret' & Hin' & Hother' & Hlen' & Halive').
    { intros t Ht. by apply HE, tl_exits_incl. }
    split; [done|]. split; [|split; [|split]].
    + intros p Hp. destruct (decide (p ∈ l)) as [Hl|Hl]; [by apply Hin'|].
      apply elem_of_cons in Hp as [->|Hp]; [|done].
      rewrite Hother', Hself2, Hports by done. apply lookup_delete_eq.
    + intros p [Hne Hp]%not_elem_of_cons.
      rewrite Hother', Hself2, Hports by done. by apply lookup_delete_ne.
    + by rewrite Hlen', Hlen2, Hthreads.
    + intros t Ht. rewrite Halive', Halive2 by done.
      unfold is_alive. by rewrite Hthreads.
Qed.

(** With no exit the loops are the loops of the methods. *)
Lemma for_each_among_no_exits {A} (l : list A) (body : A → M unit) exits w :
  concat exits = [] →
  for_each_among l body exits w = for_each l body w.
Proof.
  revert exits w. induction l as [|x l IH]; intros exits w Hnone; [done|].
  assert (hd [] exits = [] ∧ concat (tl exits) = []) as [Hhd Htl].
  { destruct exits as [|e exits]; [done|]. simpl in *.
    by apply app_eq_nil in Hnone. }
  cbn [for_each_among for_each]. unfold mbind, M_bind. rewrite Hhd.
  destruct (body x w) as [[[]|e] w1]; [|done].
  simpl. by apply IH.
Qed.

Lemma monitor_cycle_among_no_exits names previous_ports exits_new
    exits_removed w :
  concat exits_new = [] → concat exits_removed = [] →
  monitor_cycle_among names previous_ports exits_new exits_removed [] w
  = monitor_cycle names previous_ports w.
Proof.
  intros Hnew Hremoved. unfold monitor_cycle_among, monitor_cycle.
  unfold mbind, M_bind, gets, mret, M_ret, logging_debug, logging_log, modify.
  simpl.
  destruct (truthy (verbose (self w))); simpl.
  all: rewrite for_each_among_no_exits by done.
  all: destruct (for_each _ on_new_port _) as [[[]|e] w1]; [|done].
  all: rewrite for_each_among_no_exits by done.
  all: by destruct (for_each _ on_removed_port w1) as [[[]|e] w2].
Qed.

Lemma on_new_port_starts port w :
  (on_new_port port w).1 = Ret tt
  ∧ live_entry (on_new_port port w).2 port
  ∧ (∀ p, p ≠ port →
       active_ports (self (on_new_port port w).2) !! p
       = active_ports (self w) !! p)
  ∧ threads w `prefix_of` threads (on_new_port port w).2.
Proof.
  destruct (on_new_port_spec port w) as (? & ? & ? & _ & ?). done.
Qed.

Lemma start_starts port w :
  (start_listening_to_port port w).1 = Ret tt
  ∧ live_entry (start_listening_to_port port w).2 port
  ∧ (∀ p, p ≠ port →
       active_ports (self (start_listening_to_port port w).2) !! p
       = active_ports (self w) !! p)
  ∧ threads w `prefix_of` threads (start_listening_to_port port w).2.
Proof.
  destruct (start_spec port w) as (? & ? & ?).
  by destruct (registry_step_start port w) as (_ & ? & _).
Qed.

Lemma exited_nil (a b : list (list (nat * Port))) (c : list (nat * Port)) :
  (concat a ++ concat b ++ c).*1 = [] →
  concat a = [] ∧ concat b = [] ∧ c = [].
Proof.
  intros H. apply fmap_nil_inv in H.
  apply app_eq_nil in H as [Ha H]. by apply app_eq_nil in H as [Hb Hc].
Qed.

Lemma monitor_loops_among_spec (current_ports previous_ports : gset string)
    exits_new exits_removed exits_sleep w :
  let exited :=
    (concat exits_new ++ concat exits_removed ++ exits_sleep).*1 in
  let r :=
    (for_each_among (elements (current_ports ∖ previous_ports)) on_new_port
       exits_new;;
     for_each_among (elements (previous_ports ∖ current_ports))
       on_removed_port exits_removed;;
     listener_exits exits_sleep;;
     mret current_ports) w in
  r.1 = Ret current_ports
  ∧ (∀ p, p ∈ current_ports → p ∉ previous_ports →
       entry_unless_exited exited r.2 p)
  ∧ (∀ p, p ∈ previous_ports → p ∉ current_ports →
       active_ports (self r.2) !! p = None)
  ∧ (∀ p, (p ∈ current_ports ↔ p ∈ previous_ports) →
       active_ports (self r.2) !! p = active_ports (self w) !! p)
  ∧ (∀ thread, thread < length (threads w) → thread ∉ exited →
       is_alive r.2 thread = is_alive w thread).
Proof.
  intros exited.
  assert (∀ t, t ∈ (concat exits_new).*1 → t ∈ exited) as Hin1.
  { intros t Ht. unfold exited. rewrite fmap_app, elem_of_app. by left. }
  assert (∀ t, t ∈ (concat exits_removed).*1 → t ∈ exited) as Hin2.
  { intros t Ht. unfold exited.
    rewrite !fmap_app, !elem_of_app. right. by left. }
  assert (∀ t, t ∈ exits_sleep.*1 → t ∈ exited) as Hin3.
  { intros t Ht. unfold exited.
    rewrite !fmap_app, !elem_of_app. right. by right. }
  unfold mbind, M_bind, mret, M_ret.
  destruct (for_each_among_starts on_new_port
              (elements (current_ports ∖ previous_ports)) exits_new exited w
              on_new_port_starts Hin1)
    as (Hret1 & Hnew & Hother1 & Hlen1 & Halive1).
  destruct (for_each_among _ on_new_port exits_new w) as [res w1].
  simpl in Hret1, Hnew, Hother1, Hlen1, Halive1. subst res.
  destruct (for_each_among_removed
              (elements (previous_ports ∖ current_ports)) exits_removed
              exited w1 Hin2)
    as (Hret2 & Hgone & Hother2 & Hlen2 & Halive2).
  destruct (for_each_among _ on_removed_port exits_removed w1) as [res w2].
  simpl in Hret2, Hgone, Hother2, Hlen2, Halive2. subst res.
  destruct (listener_exits_spec exits_sleep w2) as [Hret3 Hsleep].
  apply (exits_only_mono _ exited) in Hsleep; [|done].
  destruct Hsleep as (Hself3 & Hlen3 & Halive3).
  destruct (listener_exits exits_sleep w2) as [res w3].
  simpl in Hret3, Hself3, Hlen3, Halive3. subst res. simpl.
  assert (∀ p, p ∉ previous_ports ∖ current_ports →
            active_ports (self w3) !! p = active_ports (self w1) !! p)
    as Hkeep2.
  { intros p Hp. rewrite Hself3. apply Hother2. by rewrite elem_of_elements. }
  assert (∀ p, p ∉ current_ports ∖ previous_ports →
            active_ports (self w1) !! p = active_ports (self w) !! p)
    as Hkeep1.
  { intros p Hp. apply Hother1. by rewrite elem_of_elements. }
  split; [done|]. split; [|split; [|split]].
  - intros p Hcur Hprev.
    destruct (Hnew p) as (t & Hentry & Hlt & Halive).
    { by rewrite elem_of_elements, elem_of_difference. }
    exists t. rewrite Hkeep2 by (rewrite elem_of_difference; tauto).
    split; [done|]. split; [lia|].
    intros Ht. rewrite Halive3, Halive2 by done. by apply Halive.
  - intros p Hprev Hcur. rewrite Hself3. apply Hgone.
    by rewrite elem_of_elements, elem_of_difference.
  - intros p Hiff.
    rewrite Hkeep2, Hkeep1; [done|rewrite elem_of_difference; tauto..].
  - intros t Ht HtE. rewrite Halive3, Halive2 by done. by apply Halive1.
Qed.

Lemma monitor_cycle_among_run names previous_ports exits_new exits_removed
    exits_sleep w :
  ∃ w0,
    self w0 = self w ∧ threads w0 = threads w
    ∧ monitor_cycle_among names previous_ports exits_new exits_removed
        exits_sleep w
      = (for_each_among (elements (list_to_set names ∖ previous_ports))
           on_new_port exits_new;;
         for_each_among (elements (previous_ports ∖ list_to_set names))
           on_removed_port exits_removed;;
         listener_exits exits_sleep;;
         mret (list_to_set names)) w0.
Proof.
  unfold monitor_cycle_among. unfold mbind at 1 2. unfold M_bind at 1 2.
  unfold gets. simpl.
  destruct (truthy (verbose (self w))).
  - exists (logged DEBUG (PeriodicScan (list_to_set names)) w).
    by autorewrite with world.
  - by exists w.
Qed.

(** C4, as the code has it. One turn of the monitor acts on the difference
    between the current and the previous enumeration, while listeners may
    come to their end at any step of it, its sleep included. After the
    turn, every device that appeared has an entry in the registry, for a
    thread that is alive unless it exited during the turn; every device that
    disappeared has no entry; the entry of every other device is the one it
    had; and the threads that existed and did not exit are as alive as they
    were. Hence, as long as no listener exits during the turn, if before it
    the registry held a live entry for exactly the devices of the previous
    enumeration, then after it the registry holds a live entry for exactly
    the devices of the current one. *)
Theorem C4_monitor_cycle_follows_the_difference
    (w : World) (names : list string) (previous_ports : gset string)
    (exits_new exits_removed : list (list (nat * Port)))
    (exits_sleep : list (nat * Port)) :
  let current_ports : gset string := list_to_set names in
  let exited :=
    (concat exits_new ++ concat exits_removed ++ exits_sleep).*1 in
  let r := monitor_cycle_among names previous_ports exits_new exits_removed
             exits_sleep w in
  r.1 = Ret current_ports
  ∧ (∀ p, p ∈ current_ports → p ∉ previous_ports →
       entry_unless_exited exited r.2 p)
  ∧ (∀ p, p ∈ previous_ports → p ∉ current_ports →
       active_ports (self r.2) !! p = None)
  ∧ (∀ p, (p ∈ current_ports ↔ p ∈ previous_ports) →
       active_ports (self r.2) !! p = active_ports (self w) !! p)
  ∧ (∀ thread, thread < length (threads w) → thread ∉ exited →
       is_alive r.2 thread = is_alive w thread)
  ∧ (exited = [] → registry_exact w previous_ports →
     registry_exact r.2 current_ports).
Proof.
  intros current_ports exited r.
  destruct (monitor_cycle_among_run names previous_ports exits_new
              exits_removed exits_sleep w)
    as (w0 & Hself & Hthreads & Hrun).
  pose proof (monitor_loops_among_spec current_ports previous_ports
                exits_new exits_removed exits_sleep w0) as Hspec.
  unfold current_ports in Hspec. rewrite <-Hrun in Hspec.
  fold current_ports exited r in Hspec.
  rewrite Hself, Hthreads in Hspec.
  unfold is_alive in Hspec at 2. rewrite Hthreads in Hspec.
  fold (is_alive w) in Hspec.
  destruct Hspec as (Hret & Hnew & Hgone & Hsame & Halive).
  do 5 (split; [done|]).
  intros Hnone Hexact.
  destruct (exited_nil _ _ _ Hnone) as (Hnew0 & Hremoved0 & Hsleep0).
  subst r. rewrite Hsleep0.
  rewrite monitor_cycle_among_no_exits by done.
  by apply monitor_cycle_exact.
Qed.

Lemma C4_witness :
  let w := (listen_to_all_midi_ports ["a"; "b"]%string
              (registered (Failed FileNotFoundError) "A")).2 in
  registry_exact
    (monitor_cycle_among ["b"; "c"]%string {[ "a"; "b" ]}%string [] [] [] w).2
    (list_to_set ["b"; "c"]%string).
Proof.
  intros w.
  refine (proj2 (proj2 (proj2 (proj2 (proj2
    (C4_monitor_cycle_follows_the_difference w ["b"; "c"]%string
       {[ "a"; "b" ]}%string [] [] []))))) eq_refl _).
  intros p. split.
  - intros [Hp|Hp]%elem_of_union; apply elem_of_singleton in Hp as ->.
    + exists 2. split; vm_compute; reflexivity.
    + exists 3. split; vm_compute; reflexivity.
  - intros Hp.
    assert (p ≠ "a"%string ∧ p ≠ "b"%string) as [Ha Hb].
    { split; intros ->; apply Hp.
      - apply elem_of_union_l. by apply elem_of_singleton.
      - apply elem_of_union_r. by apply elem_of_singleton. }
    change (active_ports (self w))
      with (<[ "a"%string := 2 ]> (<[ "b"%string := 3 ]> (∅ : gmap string nat))).
    by rewrite !lookup_insert_ne, lookup_empty.
Defined.

(** A device that appears and cannot be opened: its listener has exited
    before the turn is over, and the entry that the turn leaves names a
    thread that is not alive. *)
Example new_device_that_cannot_be_opened :
  let w := registered (Failed FileNotFoundError) "A" in
  let r := monitor_cycle_among ["dev"%string] ∅
             [[(2, OpenFails (OtherException "IOError"))]] [] [] w in
  active_ports (self r.2) !! "dev"%string = Some 2
  ∧ is_alive r.2 2 = false.
Proof. vm_compute. done. Qed.

Lemma listen_to_all_midi_ports_among_no_exits names exits w :
  concat exits = [] →
  listen_to_all_midi_ports_among names exits w
  = listen_to_all_midi_ports names w.
Proof.
  intros Hnone. unfold listen_to_all_midi_ports_among, listen_to_all_midi_ports.
  unfold mbind, M_bind, gets, mret, M_ret, logging_info, logging_log, modify.
  simpl.
  destruct (_ || _); simpl; by rewrite for_each_among_no_exits.
Qed.

Lemma listen_to_all_midi_ports_among_run names exits w :
  ∃ w0,
    self w0 = self w ∧ threads w0 = threads w
    ∧ listen_to_all_midi_ports_among names exits w
      = for_each_among (elements (list_to_set names : gset string))
          start_listening_to_port exits w0.
Proof.
  unfold listen_to_all_midi_ports_among; monad.
  destruct (_ || _); monad; eexists; (split; [|split; [|done]]);
    by autorewrite with world.
Qed.

Lemma scan_registry_step names w :
  registry_step w (listen_to_all_midi_ports names w).2.
Proof.
  assert (∃ w1, listen_to_all_midi_ports names w
                = for_each (elements (list_to_set names : gset string))
                    start_listening_to_port w1
                ∧ registry_step w w1) as (w1 & -> & Hw1).
  { unfold listen_to_all_midi_ports; monad.
    destruct (_ || _); monad; eexists;
      (split; [done|]);
      [apply registry_step_logged|apply registry_step_refl]. }
  eapply registry_step_trans; [done|].
  apply registry_step_for_each, registry_step_start.
Qed.

(** X10. The initial scan returns without an exception, while listeners may
    come to their end at any step of it. After it every enumerated device
    has an entry in the registry, for a thread that is alive unless it
    exited during the scan; the entry of every other device is the one it
    had; and the threads that existed and did not exit are as alive as they
    were. As long as no listener exits during the scan, nothing else of the
    plugin is touched, and on the registry of a plugin that was just
    started, which is empty, the registry then holds a live entry for
    exactly the enumerated devices. *)
Theorem initial_scan_starts_every_listener
    (w : World) (names : list string) (exits : list (list (nat * Port))) :
  let exited := (concat exits).*1 in
  let r := listen_to_all_midi_ports_among names exits w in
  r.1 = Ret tt
  ∧ (∀ p, p ∈ names → entry_unless_exited exited r.2 p)
  ∧ (∀ p, p ∉ names →
       active_ports (self r.2) !! p = active_ports (self w) !! p)
  ∧ (∀ thread, thread < length (threads w) → thread ∉ exited →
       is_alive r.2 thread = is_alive w thread)
  ∧ (exited = [] → registry_step w r.2)
  ∧ (exited = [] → active_ports (self w) = ∅ →
     registry_exact r.2 (list_to_set names)).
Proof.
  intros exited r.
  destruct (listen_to_all_midi_ports_among_run names exits w)
    as (w0 & Hself & Hthreads & Hrun).
  destruct (for_each_among_starts start_listening_to_port
              (elements (list_to_set names : gset string)) exits exited w0
              start_starts (λ t Ht, Ht))
    as (Hret & Hin & Hother & _ & Halive).
  rewrite <-Hrun in Hret, Hin, Hother, Halive. fold r in Hret, Hin, Hother, Halive.
  rewrite Hself in Hother. rewrite Hthreads in Halive.
  unfold is_alive in Halive at 2. rewrite Hthreads in Halive.
  fold (is_alive w) in Halive.
  assert (∀ p, p ∈ names → entry_unless_exited exited r.2 p) as Hentries.
  { intros p Hp. apply Hin. by rewrite elem_of_elements, elem_of_list_to_set. }
  assert (∀ p, p ∉ names →
            active_ports (self r.2) !! p = active_ports (self w) !! p)
    as Hsame.
  { intros p Hp. apply Hother.
    by rewrite elem_of_elements, elem_of_list_to_set. }
  do 4 (split; [done|]). split.
  - intros Hnone. apply fmap_nil_inv in Hnone. subst r.
    rewrite listen_to_all_midi_ports_among_no_exits by done.
    apply scan_registry_step.
  - intros Hnone Hempty p. rewrite elem_of_list_to_set. split.
    + intros Hp. destruct (Hentries p Hp) as (t & Hentry & _ & Halive').
      exists t. split; [done|]. apply Halive'. rewrite Hnone.
      apply not_elem_of_nil.
    + intros Hp. by rewrite Hsame, Hempty.
Qed.

Lemma initial_scan_starts_every_listener_witness :
  registry_exact
    (listen_to_all_midi_ports_among ["a"; "b"; "a"]%string []
       (registered (Failed FileNotFoundError) "A")).2
    (list_to_set ["a"; "b"; "a"]%string).
Proof.
  refine (proj2 (proj2 (proj2 (proj2 (proj2
    (initial_scan_starts_every_listener
       (registered (Failed FileNotFoundError) "A")
       ["a"; "b"; "a"]%string []))))) eq_refl eq_refl).
Defined.

(** A device that the scan finds and that cannot be opened: the scan
    leaves an entry for it whose thread is not alive. *)
Example scanned_device_that_cannot_be_opened :
  let w := registered (Failed FileNotFoundError) "A" in
  let r := listen_to_all_midi_ports_among ["dev"%string]
             [[(2, OpenFails (OtherException "IOError"))]] w in
  active_ports (self r.2) !! "dev"%string = Some 2
  ∧ is_alive r.2 2 = false.
Proof. vm_compute. done. Qed.
